(** * Cortex: memcached client discovery and rules configuration

    A shallow embedding of

    - [pkg/chunk/cache/memcached_client.go]: the memcached client that
      resolves its server list, sorts it, installs it in a server selector
      and refreshes it from a background loop;
    - [pkg/configs/configs.go]: the rules configuration model ([RulesConfig],
      [View], [VersionedRulesConfig]).

    and of the bucket function of the consistent selector, which the
    specification describes and whose code is not among these files.

    Go strings are byte strings and are modelled by [string] (lists of 8-bit
    [ascii]); Go maps by [gmap]; calls into collaborators that live outside
    these two files (DNS, the selector, the metrics registry, the logger, the
    rule and PromQL parsers) are either parameters or recorded in an explicit
    world state. *)

From Stdlib Require Import ZArith NArith List String Ascii Bool Lia.
From Stdlib Require Import Sorting.Sorted Sorting.Permutation.
From Stdlib Require Import DecimalString.
From Stdlib Require Import Floats.SpecFloat.
From stdpp Require Import gmap strings list fin_maps.

Local Open Scope string_scope.

(** ** The parts of Go's [strings], [sort] and [fmt] the client uses *)

Module GoStrings.

(** [strings.Split(s, sep)] for a one-byte separator, the only way the
    client calls it.  The result always has [Count(s, sep) + 1] elements;
    in particular splitting the empty string yields one empty string. *)
Fixpoint Split (s : string) (sep : ascii) : list string :=
  match s with
  | EmptyString => [EmptyString]
  | String ch rest =>
      if Ascii.eqb ch sep then EmptyString :: Split rest sep
      else match Split rest sep with
           | hd :: tl => String ch hd :: tl
           | [] => [String ch EmptyString]
           end
  end.

(** Go compares strings byte by byte, a proper prefix being smaller:
    this is [String.compare]. *)
Definition less (a b : string) : bool := String.ltb a b.
Definition lessEq (a b : string) : bool := String.leb a b.

(** [sort.Strings]: sorts in increasing order of [less].  The order is
    total and antisymmetric, so the result does not depend on the sorting
    algorithm ([sorted_unique] below); insertion sort stands for it. *)
Fixpoint insert (x : string) (l : list string) : list string :=
  match l with
  | [] => [x]
  | y :: tl => if lessEq x y then x :: y :: tl else y :: insert x tl
  end.

Fixpoint Strings (l : list string) : list string :=
  match l with
  | [] => []
  | x :: tl => insert x (Strings tl)
  end.

(** "Sorted" for a list of strings: [StronglySorted le]. *)
Definition le (a b : string) : Prop := lessEq a b = true.

(** [fmt.Sprintf("%d", n)] for an unsigned number. *)
Definition Itoa (n : N) : string :=
  NilZero.string_of_uint (N.to_uint n).

(** [fmt.Sprintf("%s:%d", target, port)]. *)
Definition Sprintf_s_colon_d (target : string) (port : N) : string :=
  target +:+ ":" +:+ Itoa port.

(** [strings.Join(elems, sep)]. *)
Fixpoint Join (elems : list string) (sep : string) : string :=
  match elems with
  | [] => ""
  | x :: rest =>
      match rest with
      | [] => x
      | _ :: _ => x +:+ sep +:+ Join rest sep
      end
  end.

(** [strings.Count(s, sep)] and [strings.Contains(s, sep)] for a one-byte
    separator. *)
Fixpoint CountByte (s : string) (sep : ascii) : nat :=
  match s with
  | EmptyString => 0
  | String ch rest =>
      (if Ascii.eqb ch sep then 1 else 0) + CountByte rest sep
  end.

Definition ContainsByte (s : string) (sep : ascii) : bool :=
  negb (CountByte s sep =? 0)%nat.

End GoStrings.

(** ** [pkg/chunk/cache/memcached_client.go] *)

Module Cache.
Import GoStrings.

(** Go [error] values, identified by their message. *)
Definition error := string.

(** [net.SRV]. *)
Record SRV := {
  Target : string;
  Port : N;        (* uint16 *)
  Priority : N;    (* uint16 *)
  Weight : N       (* uint16 *)
}.

Record MemcachedClientConfig := {
  Host : string;
  Service : string;
  Addresses : string;
  Timeout : Z;
  MaxIdleConns : Z;
  UpdateInterval : Z;
  ConsistentHash : bool
}.

(** The two implementations of the [serverSelector] interface the
    constructor chooses from. *)
Inductive serverSelector := MemcachedJumpHashSelector | ServerList.

(** [memcachedClient].  The selector's list and the gauge's value are
    shared, mutable objects: they live in the [World] below, the client
    holds which selector it has and the name of its gauge child.  The quit
    channel and the wait group belong to the concurrent part ([Sys]). *)
Record memcachedClient := {
  client_Timeout : Z;
  client_MaxIdleConns : Z;
  serverList : serverSelector;
  hostname : string;
  service : string;
  addresses : list string;
  numServers : string
}.

(** What the collaborators answer during one resolution cycle. *)
Record Network := {
  (** [provider.Addresses()] after [provider.Resolve(ctx, addrs)] *)
  provider_Addresses : list string -> list string;
  (** [net.LookupSRV(service, proto, name)]: cname, records, error *)
  net_LookupSRV : string -> string -> string ->
                  string * list SRV * option error;
  (** the error [SetServers] returns for a list, if any *)
  selector_SetServers : list string -> option error
}.

Inductive level := LevelError | LevelWarn.

Record logEntry := { lvl : level; msg : string; cause : error }.

(** Calls made to the collaborators, oldest first. *)
Inductive call :=
| CallResolve (addrs : list string)
| CallLookupSRV (svc proto name : string)
| CallGaugeSet (name : string) (v : Z)
| CallSetServers (servers : list string)
| CallGo_updateLoop (interval : Z).

Record World := {
  servers : list string;       (* the selector's active server list *)
  metrics : gmap string Z;     (* cortex_memcache_client_servers, by name *)
  log : list logEntry;         (* util.Logger's output *)
  calls : list call
}.

(** A small state monad over the world. *)
Definition M (A : Type) : Type := World -> A * World.
Definition ret {A} (a : A) : M A := fun w => (a, w).
Definition bind {A B} (m : M A) (k : A -> M B) : M B :=
  fun w => let '(a, w') := m w in k a w'.

Declare Scope go_scope.
Delimit Scope go_scope with go.
Notation "x <- m ;; k" := (bind m (fun x => k))
  (at level 100, m at next level, right associativity) : go_scope.
Notation "m ;;; k" := (bind m (fun _ => k))
  (at level 100, right associativity) : go_scope.
Local Open Scope go_scope.

Definition record (c : call) : M unit := fun w =>
  (tt, {| servers := servers w; metrics := metrics w; log := log w;
          calls := (calls w ++ [c])%list |}).

(** [c.provider.Resolve(ctx, addrs)] followed by [c.provider.Addresses()]. *)
Definition provider_Resolve (net : Network) (addrs : list string)
  : M (list string) :=
  record (CallResolve addrs) ;;; ret (provider_Addresses net addrs).

Definition LookupSRV (net : Network) (svc proto name : string)
  : M (string * list SRV * option error) :=
  record (CallLookupSRV svc proto name) ;;; ret (net_LookupSRV net svc proto name).

(** [memcacheServersDiscovered.WithLabelValues(name)]: the gauge child for
    [name], created with value 0 when it does not exist yet. *)
Definition WithLabelValues (name : string) : M string := fun w =>
  (name,
   {| servers := servers w;
      metrics := match metrics w !! name with
                 | Some _ => metrics w
                 | None => <[name := 0%Z]> (metrics w)
                 end;
      log := log w; calls := calls w |}).

(** [g.Set(float64(n))]; the count [n] is kept as an integer (a list
    length converts to [float64] exactly). *)
Definition Gauge_Set (g : string) (n : nat) : M unit := fun w =>
  (tt, {| servers := servers w;
          metrics := <[g := Z.of_nat n]> (metrics w);
          log := log w;
          calls := (calls w ++ [CallGaugeSet g (Z.of_nat n)])%list |}).

(** Modelled from the spec: the selectors' [SetServers] (their code is not
    in this file), which replaces the prior list wholesale and, when it
    returns an error, leaves the list as it was. *)
Definition SetServers (net : Network) (l : list string) : M (option error) :=
  fun w =>
    match selector_SetServers net l with
    | Some e =>
        (Some e, {| servers := servers w; metrics := metrics w; log := log w;
                    calls := (calls w ++ [CallSetServers l])%list |})
    | None =>
        (None, {| servers := l; metrics := metrics w; log := log w;
                  calls := (calls w ++ [CallSetServers l])%list |})
    end.

(** [level.X(util.Logger).Log("msg", m, ..., "err", e)]. *)
Definition Log (l : level) (m : string) (e : error) : M unit := fun w =>
  (tt, {| servers := servers w; metrics := metrics w;
          log := (log w ++ [{| lvl := l; msg := m; cause := e |}])%list;
          calls := calls w |}).

(** [for _, srv := range addrs { servers = append(servers, Sprintf(...)) }] *)
Definition appendTargets (addrs : list SRV) : list string :=
  fold_left
    (fun acc srv => (acc ++ [Sprintf_s_colon_d (Target srv) (Port srv)])%list)
    addrs [].

(** [updateMemcacheServers]: the function's tail, common to both
    branches, is [install]. *)
Definition install (c : memcachedClient) (net : Network) (l : list string)
  : M (option error) :=
  let sorted := Strings l in
  Gauge_Set (numServers c) (length sorted) ;;;
  SetServers net sorted.

Definition updateMemcacheServers (c : memcachedClient) (net : Network)
  : M (option error) :=
  if (0 <? length (addresses c))%nat then
    l <- provider_Resolve net (addresses c) ;;
    install c net l
  else
    r <- LookupSRV net (service c) "tcp" (hostname c) ;;
    let '(_, addrs, err) := r in
    match err with
    | Some e => ret (Some e)
    | None => install c net (appendTargets addrs)
    end.

(** A fresh selector ([&MemcachedJumpHashSelector{}] or
    [&memcache.ServerList{}]) has no servers. *)
Definition newSelector (k : serverSelector) : M serverSelector := fun w =>
  (k, {| servers := []; metrics := metrics w; log := log w;
         calls := calls w |}).

(** [c.wait.Add(1); go c.updateLoop(interval)]. *)
Definition go_updateLoop (interval : Z) : M unit :=
  record (CallGo_updateLoop interval).

Definition NewMemcachedClient (cfg : MemcachedClientConfig) (name : string)
    (net : Network) : M memcachedClient :=
  selector <- newSelector (if ConsistentHash cfg
                           then MemcachedJumpHashSelector else ServerList) ;;
  gauge <- WithLabelValues name ;;
  let newClient :=
    {| client_Timeout := Timeout cfg;
       client_MaxIdleConns := MaxIdleConns cfg;
       serverList := selector;
       hostname := Host cfg;
       service := Service cfg;
       addresses := Split (Addresses cfg) ",";
       numServers := gauge |} in
  err <- updateMemcacheServers newClient net ;;
  match err with
  | Some e => Log LevelError "error setting memcache servers to host" e
  | None => ret tt
  end ;;;
  go_updateLoop (UpdateInterval cfg) ;;;
  ret newClient.

(** One iteration of [updateLoop]'s [case <-ticker.C]. *)
Definition tick (c : memcachedClient) (net : Network) : M unit :=
  err <- updateMemcacheServers c net ;;
  match err with
  | Some e => Log LevelWarn "error updating memcache servers" e
  | None => ret tt
  end.

(** [updateLoop] over the sequence of cases its [select] takes: a tick,
    with what the network answers during it, or the quit channel. *)
Inductive selected := Tick (net : Network) | QuitClosed.

Inductive loopState := Selecting | Exited.

Fixpoint updateLoop (c : memcachedClient) (evs : list selected)
  : M loopState :=
  match evs with
  | [] => ret Selecting
  | Tick net :: evs' => tick c net ;;; updateLoop c evs'
  | QuitClosed :: _ => ret Exited
  end.

(** *** The client with its background goroutine

    [Stop] and [updateLoop] run concurrently and meet at the [quit]
    channel and the wait group.  The system state interleaves the two:
    each [action] is one atomic step of one of them.  A tick is taken as
    one step, since nothing in it reads [quit] or [wait]. *)

Inductive stopState := NotCalled | Waiting | Returned.

Record Sys := {
  world : World;
  quit_closed : bool;       (* close(c.quit) has happened *)
  wait : nat;               (* the wait group's counter *)
  loop : loopState;
  stop : stopState
}.

Inductive action :=
| LoopTick (net : Network)   (* select takes <-ticker.C *)
| LoopQuit                   (* select takes <-c.quit; ticker.Stop(); return;
                                the deferred c.wait.Done() *)
| StopClose                  (* Stop: close(c.quit) *)
| StopWaitReturns.           (* Stop: c.wait.Wait() returns *)

Definition step (c : memcachedClient) (a : action) (s : Sys) : option Sys :=
  match a with
  | LoopTick net =>
      match loop s with
      | Selecting =>
          Some {| world := snd (tick c net (world s));
                  quit_closed := quit_closed s; wait := wait s;
                  loop := Selecting; stop := stop s |}
      | Exited => None
      end
  | LoopQuit =>
      match loop s with
      | Selecting =>
          if quit_closed s
          then Some {| world := world s; quit_closed := true;
                       wait := wait s - 1; loop := Exited; stop := stop s |}
          else None
      | Exited => None
      end
  | StopClose =>
      match stop s with
      | NotCalled =>
          if quit_closed s then None    (* close of a closed channel panics *)
          else Some {| world := world s; quit_closed := true;
                       wait := wait s; loop := loop s; stop := Waiting |}
      | _ => None
      end
  | StopWaitReturns =>
      match stop s with
      | Waiting =>
          if (wait s =? 0)%nat
          then Some {| world := world s; quit_closed := quit_closed s;
                       wait := wait s; loop := loop s; stop := Returned |}
          else None
      | _ => None
      end
  end.

Fixpoint run (c : memcachedClient) (acts : list action) (s : Sys)
  : option Sys :=
  match acts with
  | [] => Some s
  | a :: rest =>
      match step c a s with
      | Some s' => run c rest s'
      | None => None
      end
  end.

(** The system as [NewMemcachedClient] leaves it: [wait.Add(1)] done, the
    goroutine started, [Stop] not called. *)
Definition started (w : World) : Sys :=
  {| world := w; quit_closed := false; wait := 1;
     loop := Selecting; stop := NotCalled |}.

(** *** Reading the model

    The resolver's outcome in one cycle, in the words of the spec's
    [resolve(source-config) -> (ServerSet, error)]: the addresses found, or
    the error of the lookup.  [update_resolved] and [update_failed] relate it
    to [updateMemcacheServers]. *)
Definition targets (addrs : list SRV) : list string :=
  map (fun srv => Sprintf_s_colon_d (Target srv) (Port srv)) addrs.

Definition resolve (c : memcachedClient) (net : Network) : error + list string :=
  match addresses c with
  | _ :: _ => inr (provider_Addresses net (addresses c))
  | [] =>
      match net_LookupSRV net (service c) "tcp" (hostname c) with
      | (_, _, Some e) => inl e
      | (_, addrs, None) => inr (targets addrs)
      end
  end.

(** The call that starts a cycle. *)
Definition resolveCall (c : memcachedClient) : call :=
  match addresses c with
  | _ :: _ => CallResolve (addresses c)
  | [] => CallLookupSRV (service c) "tcp" (hostname c)
  end.

(** Counting calls in a trace. *)
Definition isResolution (k : call) : bool :=
  match k with CallResolve _ | CallLookupSRV _ _ _ => true | _ => false end.
Definition isLookupSRV (k : call) : bool :=
  match k with CallLookupSRV _ _ _ => true | _ => false end.
Definition isGaugeSet (k : call) : bool :=
  match k with CallGaugeSet _ _ => true | _ => false end.
Definition isSetServers (k : call) : bool :=
  match k with CallSetServers _ => true | _ => false end.
Definition count (p : call -> bool) (cs : list call) : nat :=
  length (filter (fun k => p k = true) cs).

(** The world after a cycle whose resolution gave [l]. *)
Definition installed (c : memcachedClient) (net : Network) (l : list string)
    (w : World) : World :=
  {| servers := match selector_SetServers net (Strings l) with
                | Some _ => servers w
                | None => Strings l
                end;
     metrics := <[numServers c := Z.of_nat (length l)]> (metrics w);
     log := log w;
     calls := (calls w ++ [resolveCall c;
                           CallGaugeSet (numServers c) (Z.of_nat (length l));
                           CallSetServers (Strings l)])%list |}.

(** Networks and clients to run the model on. *)
Definition dnsDown : Network :=
  {| provider_Addresses := fun addrs => rev addrs;
     net_LookupSRV := fun _ _ _ => ("", [], Some "no such host");
     selector_SetServers := fun _ => None |}.

Definition dnsUp : Network :=
  {| provider_Addresses := fun addrs => rev addrs;
     net_LookupSRV := fun _ _ _ =>
       ("memcached.svc.",
        [ {| Target := "mc-1.svc."; Port := 11211; Priority := 20; Weight := 5 |};
          {| Target := "mc-0.svc."; Port := 11211; Priority := 10; Weight := 0 |} ],
        None);
     selector_SetServers := fun _ => None |}.

Definition emptyWorld : World :=
  {| servers := []; metrics := ∅; log := []; calls := [] |}.

Definition srvClient : memcachedClient :=
  {| client_Timeout := 100; client_MaxIdleConns := 16;
     serverList := ServerList; hostname := "memcached.svc";
     service := "memcached"; addresses := []; numServers := "chunks" |}.

Definition staticConfig (addrs : string) : MemcachedClientConfig :=
  {| Host := "memcached.svc"; Service := "memcached"; Addresses := addrs;
     Timeout := 100; MaxIdleConns := 16; UpdateInterval := 60000;
     ConsistentHash := false |}.

End Cache.
(** ** [RegisterFlagsWithPrefix] *)

Module CacheFlags.
Import Cache.

(** The [flag] package, as far as registration goes: a flag set maps a
    name to the flag's default value and usage; defining a name twice
    panics. *)
Inductive flagDefault :=
| StringDefault (s : string)
| IntDefault (n : Z)
| DurationDefault (nanoseconds : Z)
| BoolDefault (b : bool).

Record Flag := { DefValue : flagDefault; Usage : string }.

Abbreviation FlagSet := (gmap string Flag).

(** The check [f.Var] makes of a flag's name before it looks the name
    up.  The releases of Go up to 1.16 make none ([anyName]); since 1.17 a
    name that begins with [-] or contains [=] panics ([plainName]).  The
    registration is modelled over either. *)
Definition anyName (name : string) : bool := true.

Fixpoint ContainsEq (name : string) : bool :=
  match name with
  | EmptyString => false
  | String ch rest => Ascii.eqb ch "=" || ContainsEq rest
  end.

Definition plainName (name : string) : bool :=
  negb (String.prefix "-" name) && negb (ContainsEq name).

Section Registration.
Variable nameOK : string -> bool.

(** [f.Var(value, name, usage)]: [None] is a panic, on a name the
    package refuses or on "flag redefined". *)
Definition Var (name : string) (def : flagDefault) (usage : string)
    (f : FlagSet) : option FlagSet :=
  if negb (nameOK name) then None
  else
    match f !! name with
    | Some _ => None
    | None => Some (<[name := {| DefValue := def; Usage := usage |}]> f)
    end.

Definition Millisecond : Z := 1000000.
Definition Minute : Z := 60000000000.

(** The usage texts of the seven flags. *)
Definition usageHostname : string :=
  "Hostname for memcached service to use when caching chunks. If empty, no memcached will be used.".
Definition usageService : string :=
  "SRV service used to discover memcache servers.".
Definition usageAddresses : string :=
  "EXPERIMENTAL: Comma separated addresses list in Thanos DNS Service Discovery format: https://thanos.io/service-discovery.md/#dns-service-discovery".
Definition usageMaxIdleConns : string :=
  "Maximum number of idle connections in pool.".
Definition usageTimeout : string :=
  "Maximum time to wait before giving up on memcached requests.".
Definition usageUpdateInterval : string :=
  "Period with which to poll DNS for memcache servers.".
Definition usageConsistentHash : string :=
  "Use consistent hashing to distribute to memcache servers.".

(** Assignments to the fields of the configuration. *)
Definition set_Host (v : string) (cfg : MemcachedClientConfig) :=
  {| Host := v; Service := Service cfg; Addresses := Addresses cfg;
     Timeout := Timeout cfg; MaxIdleConns := MaxIdleConns cfg;
     UpdateInterval := UpdateInterval cfg; ConsistentHash := ConsistentHash cfg |}.
Definition set_Service (v : string) (cfg : MemcachedClientConfig) :=
  {| Host := Host cfg; Service := v; Addresses := Addresses cfg;
     Timeout := Timeout cfg; MaxIdleConns := MaxIdleConns cfg;
     UpdateInterval := UpdateInterval cfg; ConsistentHash := ConsistentHash cfg |}.
Definition set_Addresses (v : string) (cfg : MemcachedClientConfig) :=
  {| Host := Host cfg; Service := Service cfg; Addresses := v;
     Timeout := Timeout cfg; MaxIdleConns := MaxIdleConns cfg;
     UpdateInterval := UpdateInterval cfg; ConsistentHash := ConsistentHash cfg |}.
Definition set_MaxIdleConns (v : Z) (cfg : MemcachedClientConfig) :=
  {| Host := Host cfg; Service := Service cfg; Addresses := Addresses cfg;
     Timeout := Timeout cfg; MaxIdleConns := v;
     UpdateInterval := UpdateInterval cfg; ConsistentHash := ConsistentHash cfg |}.
Definition set_Timeout (v : Z) (cfg : MemcachedClientConfig) :=
  {| Host := Host cfg; Service := Service cfg; Addresses := Addresses cfg;
     Timeout := v; MaxIdleConns := MaxIdleConns cfg;
     UpdateInterval := UpdateInterval cfg; ConsistentHash := ConsistentHash cfg |}.
Definition set_UpdateInterval (v : Z) (cfg : MemcachedClientConfig) :=
  {| Host := Host cfg; Service := Service cfg; Addresses := Addresses cfg;
     Timeout := Timeout cfg; MaxIdleConns := MaxIdleConns cfg;
     UpdateInterval := v; ConsistentHash := ConsistentHash cfg |}.
Definition set_ConsistentHash (v : bool) (cfg : MemcachedClientConfig) :=
  {| Host := Host cfg; Service := Service cfg; Addresses := Addresses cfg;
     Timeout := Timeout cfg; MaxIdleConns := MaxIdleConns cfg;
     UpdateInterval := UpdateInterval cfg; ConsistentHash := v |}.

(** [f.StringVar(p, name, value, usage)] and the like: the default is
    stored through [p] and the flag defined. *)
Definition StringVar (p : string -> MemcachedClientConfig -> MemcachedClientConfig)
    (name value usage : string) (st : MemcachedClientConfig * FlagSet)
  : option (MemcachedClientConfig * FlagSet) :=
  match Var name (StringDefault value) usage (snd st) with
  | Some f' => Some (p value (fst st), f')
  | None => None
  end.

Definition IntVar (p : Z -> MemcachedClientConfig -> MemcachedClientConfig)
    (name : string) (value : Z) (usage : string)
    (st : MemcachedClientConfig * FlagSet)
  : option (MemcachedClientConfig * FlagSet) :=
  match Var name (IntDefault value) usage (snd st) with
  | Some f' => Some (p value (fst st), f')
  | None => None
  end.

Definition DurationVar (p : Z -> MemcachedClientConfig -> MemcachedClientConfig)
    (name : string) (value : Z) (usage : string)
    (st : MemcachedClientConfig * FlagSet)
  : option (MemcachedClientConfig * FlagSet) :=
  match Var name (DurationDefault value) usage (snd st) with
  | Some f' => Some (p value (fst st), f')
  | None => None
  end.

Definition BoolVar (p : bool -> MemcachedClientConfig -> MemcachedClientConfig)
    (name : string) (value : bool) (usage : string)
    (st : MemcachedClientConfig * FlagSet)
  : option (MemcachedClientConfig * FlagSet) :=
  match Var name (BoolDefault value) usage (snd st) with
  | Some f' => Some (p value (fst st), f')
  | None => None
  end.

(** [RegisterFlagsWithPrefix]: the seven definitions, one after the
    other, on the configuration and the flag set. *)
Definition RegisterFlagsWithPrefix (cfg : MemcachedClientConfig)
    (prefix description : string) (f : FlagSet)
  : option (MemcachedClientConfig * FlagSet) :=
  st ← StringVar set_Host (prefix +:+ "memcached.hostname") ""
         (description +:+ usageHostname) (cfg, f);
  st ← StringVar set_Service (prefix +:+ "memcached.service") "memcached"
         (description +:+ usageService) st;
  st ← StringVar set_Addresses (prefix +:+ "memcached.addresses") ""
         (description +:+ usageAddresses) st;
  st ← IntVar set_MaxIdleConns (prefix +:+ "memcached.max-idle-conns") 16
         (description +:+ usageMaxIdleConns) st;
  st ← DurationVar set_Timeout (prefix +:+ "memcached.timeout")
         (100 * Millisecond) (description +:+ usageTimeout) st;
  st ← DurationVar set_UpdateInterval (prefix +:+ "memcached.update-interval")
         (1 * Minute) (description +:+ usageUpdateInterval) st;
  BoolVar set_ConsistentHash (prefix +:+ "memcached.consistent-hash") false
    (description +:+ usageConsistentHash) st.

End Registration.

End CacheFlags.

(** ** The consistent selector's bucket function *)

Module JumpHash.
Local Open Scope Z_scope.

(** IEEE 754 binary64, Go's [float64]: 53 bits of precision, as
    [SpecFloat] specifies its operations (round to nearest, ties to even). *)
Definition prec : Z := 53.
Definition emax : Z := 1024.

(** [float64(z)] for an integer [z]. *)
Definition float64_of_int (z : Z) : spec_float :=
  binary_normalize prec emax z 0 false.

Definition mul64 : spec_float -> spec_float -> spec_float := SFmul prec emax.
Definition div64 : spec_float -> spec_float -> spec_float := SFdiv prec emax.

(** [int64(f)]: the fraction is discarded.  A value outside int64 (or a
    NaN) has no defined conversion; it is given the value amd64 produces,
    the smallest int64. *)
Definition int64_of_float (f : spec_float) : Z :=
  match f with
  | S754_zero _ => 0
  | S754_finite s m e =>
      let v := if 0 <=? e then Zpos m * 2 ^ e else Zpos m / 2 ^ (- e) in
      if v <? 2 ^ 63 then (if s then - v else v) else - 2 ^ 63
  | _ => - 2 ^ 63
  end.

(** Wrap-around of unsigned 64-bit and signed 32-bit integers. *)
Definition uint64 (z : Z) : Z := z mod 2 ^ 64.
Definition int32 (z : Z) : Z := (z + 2 ^ 31) mod 2 ^ 32 - 2 ^ 31.

(** Modelled from the spec: the bucket function of the consistent
    selector ([MemcachedJumpHashSelector], whose code is not among these
    files).  The spec names it: a jump consistent hash, which from
    [hash(key)] as a 64-bit value and the server count [n] computes an
    integer bucket.  This is that algorithm (Lamping and Veach), on a
    [uint64] key, with [int64] bucket candidates [b] and [j] and an [int32]
    result:

      b, j := -1, 0
      for j < n {
        b = j
        key = key*2862933555777941757 + 1
        j = int64(float64(b+1) * (float64(1<<31) / float64((key>>33)+1)))
      }
      return int32(b)

    [lcg] is the key's update, [jump] the next candidate, [jumpLoop] the
    loop with a bound on its iterations, [jumpHash] the function. *)
Definition lcg (key : Z) : Z := uint64 (key * 2862933555777941757 + 1).

Definition jump (b key : Z) : Z :=
  int64_of_float
    (mul64 (float64_of_int (b + 1))
       (div64 (float64_of_int (2 ^ 31))
              (float64_of_int (Z.shiftr key 33 + 1)))).

Fixpoint jumpLoop (fuel : nat) (key b j n : Z) : option Z :=
  match fuel with
  | O => None
  | S fuel' =>
      if j <? n then
        let key' := lcg key in
        jumpLoop fuel' key' j (jump j key') n
      else Some b
  end.

Definition jumpHash (key n : Z) : option Z :=
  option_map int32 (jumpLoop (Z.to_nat n + 1) key (-1) 0 n).

End JumpHash.

(** ** [pkg/configs/configs.go] *)

Module Configs.

(** [type ID int]. *)
Definition ID := Z.

(** [time.Time], as the instant [IsZero] looks at: seconds and nanoseconds
    since January 1, year 1, 00:00:00 UTC. *)
Record Time := { sec : Z; nsec : Z }.

Definition Time_IsZero (t : Time) : bool := (sec t =? 0)%Z && (nsec t =? 0)%Z.

(** [type RulesConfig map[string]string]: a Go map is [nil] or a table of
    entries; [len], indexing and [range] read a nil map as an empty one. *)
Abbreviation RulesConfig := (option (gmap string string)).

Definition entries (c : RulesConfig) : gmap string string := default ∅ c.

Definition len (c : RulesConfig) : nat := size (entries c).

(** [v, ok := o[k]]. *)
Definition index (o : RulesConfig) (k : string) : string * bool :=
  match entries o !! k with
  | Some v => (v, true)
  | None => (EmptyString, false)
  end.

Record Config := {
  RulesFiles : RulesConfig;
  AlertmanagerConfig : string
}.

Record View := {
  View_ID : ID;
  View_Config : Config;
  View_DeletedAt : Time
}.

Record VersionedRulesConfig := {
  VRC_ID : ID;
  VRC_Config : RulesConfig;
  VRC_DeletedAt : Time
}.

(** The result is a pointer: [None] is [nil]. *)
Definition GetVersionedRulesConfig (v : View) : option VersionedRulesConfig :=
  match RulesFiles (View_Config v) with
  | None => None
  | Some _ =>
      Some {| VRC_ID := View_ID v;
              VRC_Config := RulesFiles (View_Config v);
              VRC_DeletedAt := View_DeletedAt v |}
  end.

Definition IsDeleted (vr : VersionedRulesConfig) : bool :=
  negb (Time_IsZero (VRC_DeletedAt vr)).

(** [Equal]'s loop, [for k, v1 := range c], over the entries in the order
    the iteration visits them (Go leaves the order of a map's iteration
    unspecified). *)
Fixpoint Equal_range (kvs : list (string * string)) (o : RulesConfig) : bool :=
  match kvs with
  | [] => true
  | (k, v1) :: rest =>
      let '(v2, ok) := index o k in
      if negb ok || negb (String.eqb v1 v2) then false
      else Equal_range rest o
  end.

Definition Equal_in (order : list (string * string)) (c o : RulesConfig) : bool :=
  if negb (len o =? len c)%nat then false
  else Equal_range order o.

(** [c.Equal(o)], iterating in the order [map_to_list] gives. *)
Definition Equal (c o : RulesConfig) : bool :=
  Equal_in (map_to_list (entries c)) c o.

(** *** [Parse] *)

Definition error := string.

(** [rulefmt.Rule], [rulefmt.RuleGroup], [rulefmt.RuleGroups]. *)
Record Rule := {
  Record_ : string;
  Alert : string;
  Expr : string;
  For : Z;
  Labels : gmap string string;
  Annotations : gmap string string
}.

Record RuleGroup := {
  Name : string;
  Interval : Z;
  Rules : list Rule
}.

Record RuleGroups := { Groups : list RuleGroup }.

(** The Prometheus packages [Parse] calls into. *)
Class Prometheus := {
  promql_Expr : Type;
  labels_Labels : Type;
  (** [rulefmt.Parse(content)]: a pointer to the groups, nil or not, and
      the list of errors *)
  rulefmt_Parse : string -> option RuleGroups * list error;
  (** [promql.ParseExpr(input)] *)
  promql_ParseExpr : string -> error + promql_Expr;
  labels_FromMap : gmap string string -> labels_Labels
}.

(** What a call does: it returns, or it panics (a nil pointer
    dereference). *)
Inductive outcome (A : Type) := Returned (a : A) | Panicked.
Arguments Returned {A} a.
Arguments Panicked {A}.

Section Parse.
Context `{Prometheus}.

(** [rules.Rule], with the two kinds of rule [Parse] builds (the logger
    handed to an alerting rule is left out). *)
Inductive rules_Rule :=
| NewAlertingRule (name : string) (vec : promql_Expr) (hold : Z)
                  (lbls anns : labels_Labels)
| NewRecordingRule (name : string) (vec : promql_Expr) (lbls : labels_Labels).

(** [fmt.Errorf("error parsing %s: %v", fn, err)]. *)
Definition Errorf_parsing (fn : string) (err : error) : error :=
  "error parsing " +:+ fn +:+ ": " +:+ err.

(** [for _, rl := range rg.Rules], [rls] being the rules built so far. *)
Fixpoint parseRules (todo : list Rule) (rls : list rules_Rule)
  : error + list rules_Rule :=
  match todo with
  | [] => inr rls
  | rl :: todo' =>
      match promql_ParseExpr (Expr rl) with
      | inl err => inl err
      | inr expr =>
          if negb (String.eqb (Alert rl) "") then
            parseRules todo'
              (rls ++ [NewAlertingRule (Alert rl) expr (For rl)
                         (labels_FromMap (Labels rl))
                         (labels_FromMap (Annotations rl))])%list
          else
            parseRules todo'
              (rls ++ [NewRecordingRule (Record_ rl) expr
                         (labels_FromMap (Labels rl))])%list
      end
  end.

(** [for _, rg := range rgs.Groups]. *)
Fixpoint parseGroups (fn : string) (todo : list RuleGroup)
    (groups : gmap string (list rules_Rule))
  : error + gmap string (list rules_Rule) :=
  match todo with
  | [] => inr groups
  | rg :: todo' =>
      match parseRules (Rules rg) [] with
      | inl err => inl err
      | inr rls => parseGroups fn todo' (<[Name rg +:+ ";" +:+ fn := rls]> groups)
      end
  end.

(** [for fn, content := range c], over the entries in the order the
    iteration visits them.  The result is Go's pair: the map, nil or not,
    and the error, nil or not. *)
Fixpoint parseFiles (todo : list (string * string))
    (groups : gmap string (list rules_Rule))
  : outcome (option (gmap string (list rules_Rule)) * option error) :=
  match todo with
  | [] => Returned (Some groups, None)
  | (fn, content) :: todo' =>
      let '(rgs, errs) := rulefmt_Parse content in
      match errs with
      | e :: _ => Returned (None, Some (Errorf_parsing fn e))
      | [] =>
          match rgs with
          | None => Panicked
          | Some rgs =>
              match parseGroups fn (Groups rgs) groups with
              | inl err => Returned (None, Some err)
              | inr groups' => parseFiles todo' groups'
              end
          end
      end
  end.

Definition Parse_in (order : list (string * string))
  : outcome (option (gmap string (list rules_Rule)) * option error) :=
  parseFiles order ∅.

(** [c.Parse()], iterating in the order [map_to_list] gives. *)
Definition Parse (c : RulesConfig)
  : outcome (option (gmap string (list rules_Rule)) * option error) :=
  Parse_in (map_to_list (entries c)).

(** A file fails rule-format parsing; one of its rule expressions fails
    PromQL parsing. *)
Definition failsFormat (content : string) : Prop :=
  snd (rulefmt_Parse content) <> [].

Definition failsExpr (content : string) : Prop :=
  exists rgs rg rl err,
    fst (rulefmt_Parse content) = Some rgs
    /\ rg ∈ Groups rgs /\ rl ∈ Rules rg
    /\ promql_ParseExpr (Expr rl) = inl err.

End Parse.

End Configs.

(** ** [vendor/github.com/benbjohnson/tmpl/main.go] *)

Module Tmpl.

Definition error := string.

(** [const Extension = ".tmpl"]. *)
Definition Extension : string := ".tmpl".

(** [strings.HasSuffix] and [strings.TrimSuffix]. *)
Definition HasSuffix (s suffix : string) : bool :=
  (String.length suffix <=? String.length s)%nat
  && String.eqb
       (String.substring (String.length s - String.length suffix)
                         (String.length suffix) s)
       suffix.

Definition TrimSuffix (s suffix : string) : string :=
  if HasSuffix s suffix
  then String.substring 0 (String.length s - String.length suffix) s
  else s.

(** [filepath.Ext]: the suffix beginning at the final dot of the final
    element of the path, empty if there is none.  The source scans from the
    end of the path and stops at a dot or at a separator; [scanExt] says
    for a suffix of the path what that scan has met. *)
Inductive extScan := ExtFound (ext : string) | ExtNone | ExtOpen.

Fixpoint scanExt (path : string) : extScan :=
  match path with
  | EmptyString => ExtOpen
  | String ch rest =>
      match scanExt rest with
      | ExtFound ext => ExtFound ext
      | ExtNone => ExtNone
      | ExtOpen =>
          if Ascii.eqb ch "." then ExtFound (String ch rest)
          else if Ascii.eqb ch "/" then ExtNone
          else ExtOpen
      end
  end.

Definition Ext (path : string) : string :=
  match scanExt path with
  | ExtFound ext => ext
  | _ => EmptyString
  end.

(** [fmt.Fprintln(&buf, a...)]: the operands separated by spaces, and a
    newline. *)
Definition newline : string := String (Ascii.ascii_of_nat 10) EmptyString.

Definition Println (operands : list string) : string :=
  String.concat " " operands +:+ newline.

(** The comment [process] puts at the top of a generated Go file. *)
Definition header (path : string) : string :=
  Println ["// Generated by tmpl"]
  +:+ Println ["// https://github.com/benbjohnson/tmpl"]
  +:+ Println ["//"]
  +:+ Println ["// DO NOT EDIT!"]
  +:+ Println ["// Source:"; path]
  +:+ Println [""].

(** What [Main] works with: its [OS] and [FileReadWriter] interfaces, over
    a state [World] of the files, and the packages it calls
    ([text/template] with its function map, [go/format]). *)
Class Env := {
  World : Type;
  Data : Type;
  Template : Type;
  FileMode : Type;
  (** [m.OS.Stat(filename)], reduced to the mode [process] reads *)
  Stat : string -> World -> error + FileMode;
  ReadFile : string -> World -> error + string;
  WriteFile : string -> string -> FileMode -> World -> option error * World;
  (** [os.IsNotExist(err)] *)
  IsNotExist : error -> bool;
  (** [template.New("main").Funcs(funcMap).Parse(source)] *)
  template_Parse : string -> error + Template;
  (** [tmpl.Execute(&buf, data)]: what it wrote, and its error *)
  template_Execute : Template -> Data -> string * option error;
  (** [format.Source(src)] *)
  format_Source : string -> error + string
}.

Section Main.
Context `{Env}.

Record Main := {
  Paths : list string;
  NoHeader : bool;
  OutputPath : string;
  MainData : Data
}.

(** [process]. *)
Definition process (m : Main) (path : string) (w : World)
  : option error * World :=
  if negb (HasSuffix path Extension) then
    (Some ("path must have " +:+ Extension +:+ " extension: " +:+ path), w)
  else
    let outputPath :=
      if String.eqb (OutputPath m) "" then TrimSuffix path Extension
      else OutputPath m in
    match Stat path w with
    | inl err =>
        if IsNotExist err then (Some "file not found", w) else (Some err, w)
    | inr mode =>
        match ReadFile path w with
        | inl err =>
            if IsNotExist err then (Some "file not found", w)
            else (Some err, w)
        | inr source =>
            match template_Parse source with
            | inl err => (Some err, w)
            | inr tmpl =>
                let buf :=
                  if negb (NoHeader m) && String.eqb (Ext outputPath) ".go"
                  then header path else EmptyString in
                let '(written, err) := template_Execute tmpl (MainData m) in
                let output := buf +:+ written in
                match err with
                | Some e => (Some e, w)
                | None =>
                    if String.eqb (Ext outputPath) ".go" then
                      match format_Source output with
                      | inl e =>
                          (Some e, snd (WriteFile outputPath output mode w))
                      | inr formatted =>
                          WriteFile outputPath formatted mode w
                      end
                    else WriteFile outputPath output mode w
                end
            end
        end
    end.

(** [Run]'s loop, [for _, path := range m.Paths]. *)
Fixpoint processAll (m : Main) (paths : list string) (w : World)
  : option error * World :=
  match paths with
  | [] => (None, w)
  | path :: rest =>
      match process m path w with
      | (Some err, w') => (Some err, w')
      | (None, w') => processAll m rest w'
      end
  end.

(** [Run]. *)
Definition Run (m : Main) (w : World) : option error * World :=
  if (length (Paths m) =? 0)%nat then (Some "path required", w)
  else processAll m (Paths m) w.

End Main.

End Tmpl.

(** ** Facts about sorting and splitting *)

Module GoStringsFacts.
Import GoStrings.

(** *** The order *)

Lemma ascii_compare_refl a : Ascii.compare a a = Eq.
Proof. unfold Ascii.compare. apply N.compare_refl. Qed.

Lemma ascii_compare_eq a b : Ascii.compare a b = Eq -> a = b.
Proof.
  unfold Ascii.compare. intros H%N.compare_eq_iff.
  rewrite <- (ascii_N_embedding a), <- (ascii_N_embedding b). now f_equal.
Qed.

Lemma ascii_compare_lt_trans a b c :
  Ascii.compare a b = Lt -> Ascii.compare b c = Lt -> Ascii.compare a c = Lt.
Proof.
  unfold Ascii.compare. rewrite !N.compare_lt_iff. lia.
Qed.

Lemma compare_refl a : String.compare a a = Eq.
Proof.
  induction a as [|x a IH]; simpl; [reflexivity|].
  now rewrite ascii_compare_refl.
Qed.

Lemma compare_lt_trans : forall a b c,
  String.compare a b = Lt -> String.compare b c = Lt -> String.compare a c = Lt.
Proof.
  induction a as [|x a IH]; intros [|y b] [|z c]; simpl; try congruence.
  destruct (Ascii.compare x y) eqn:Hxy; try congruence;
    destruct (Ascii.compare y z) eqn:Hyz; try congruence; intros H1 H2.
  - apply ascii_compare_eq in Hxy, Hyz. subst.
    rewrite ascii_compare_refl. eauto.
  - apply ascii_compare_eq in Hxy. subst. now rewrite Hyz.
  - apply ascii_compare_eq in Hyz. subst. now rewrite Hxy.
  - now rewrite (ascii_compare_lt_trans _ _ _ Hxy Hyz).
Qed.

Lemma lessEq_trans a b c :
  lessEq a b = true -> lessEq b c = true -> lessEq a c = true.
Proof.
  unfold lessEq, String.leb.
  destruct (String.compare a b) eqn:Hab; try discriminate;
    destruct (String.compare b c) eqn:Hbc; try discriminate; intros _ _.
  - apply String.compare_eq_iff in Hab, Hbc. subst.
    now rewrite compare_refl.
  - apply String.compare_eq_iff in Hab. subst. now rewrite Hbc.
  - apply String.compare_eq_iff in Hbc. subst. now rewrite Hab.
  - now rewrite (compare_lt_trans _ _ _ Hab Hbc).
Qed.

Lemma lessEq_antisym a b : lessEq a b = true -> lessEq b a = true -> a = b.
Proof. apply String.leb_antisym. Qed.

Lemma lessEq_total a b : lessEq a b = true \/ lessEq b a = true.
Proof. apply String.leb_total. Qed.

Lemma lessEq_refl a : lessEq a a = true.
Proof. destruct (lessEq_total a a); assumption. Qed.

(** *** [Strings] sorts *)

Lemma insert_perm x l : Permutation (x :: l) (insert x l).
Proof.
  induction l as [|y tl IH]; simpl; [reflexivity|].
  destruct (lessEq x y); [reflexivity|].
  rewrite perm_swap. now constructor.
Qed.

Lemma Strings_perm l : Permutation l (Strings l).
Proof.
  induction l as [|x tl IH]; simpl; [constructor|].
  rewrite <- insert_perm. now constructor.
Qed.

Lemma insert_sorted x l :
  StronglySorted le l -> StronglySorted le (insert x l).
Proof.
  induction 1 as [|y tl Hs IH Hall]; simpl.
  - repeat constructor.
  - destruct (lessEq x y) eqn:Hxy.
    + constructor; [now constructor|].
      constructor; [exact Hxy|].
      eapply List.Forall_impl; [|exact Hall].
      intros z Hz. eapply lessEq_trans; eassumption.
    + constructor; [exact IH|].
      eapply Permutation_Forall; [apply insert_perm|].
      constructor; [|exact Hall].
      destruct (lessEq_total x y) as [H|H]; [congruence|exact H].
Qed.

Lemma Strings_sorted l : StronglySorted le (Strings l).
Proof.
  induction l as [|x tl IH]; simpl; [constructor|now apply insert_sorted].
Qed.

(** Two sorted lists with the same elements are the same list. *)
Lemma sorted_unique : forall l1 l2,
  StronglySorted le l1 -> StronglySorted le l2 -> Permutation l1 l2 -> l1 = l2.
Proof.
  induction l1 as [|x l1 IH]; intros l2 H1 H2 Hp.
  - apply Permutation_nil in Hp. now subst.
  - destruct l2 as [|y l2].
    { symmetry in Hp. now apply Permutation_nil in Hp. }
    inversion H1 as [|? ? Hs1 Hall1]; subst.
    inversion H2 as [|? ? Hs2 Hall2]; subst.
    assert (x = y) as ->.
    { assert (Hx : In x (y :: l2))
        by (eapply Permutation_in; [exact Hp|now left]).
      assert (Hy : In y (x :: l1))
        by (eapply Permutation_in; [symmetry; exact Hp|now left]).
      destruct Hx as [->|Hx]; [reflexivity|].
      destruct Hy as [->|Hy]; [reflexivity|].
      apply lessEq_antisym.
      - rewrite List.Forall_forall in Hall1. now apply Hall1.
      - rewrite List.Forall_forall in Hall2. now apply Hall2. }
    f_equal. apply IH; try assumption.
    eapply Permutation_cons_inv; exact Hp.
Qed.

Lemma Strings_perm_eq l1 l2 : Permutation l1 l2 -> Strings l1 = Strings l2.
Proof.
  intros Hp. apply sorted_unique; try apply Strings_sorted.
  rewrite <- !Strings_perm. exact Hp.
Qed.

Lemma Strings_length l : length (Strings l) = length l.
Proof. symmetry. apply Permutation_length, Strings_perm. Qed.

Lemma Split_nonempty s sep : Split s sep <> [].
Proof.
  destruct s as [|ch rest]; simpl; [discriminate|].
  destruct (Ascii.eqb ch sep); [discriminate|].
  destruct (Split rest sep); discriminate.
Qed.

End GoStringsFacts.

(** ** Facts about the memcached client *)

Module CacheFacts.
Import GoStrings GoStringsFacts Cache.
Local Open Scope go_scope.

Lemma appendTargets_from (addrs : list SRV) (acc : list string) :
  fold_left
    (fun acc srv => (acc ++ [Sprintf_s_colon_d (Target srv) (Port srv)])%list)
    addrs acc = (acc ++ targets addrs)%list.
Proof.
  revert acc. induction addrs as [|srv addrs IH]; intros acc; simpl.
  - now rewrite app_nil_r.
  - rewrite IH, <- app_assoc. reflexivity.
Qed.

Lemma appendTargets_targets (addrs : list SRV) :
  appendTargets addrs = targets addrs.
Proof. unfold appendTargets. now rewrite appendTargets_from. Qed.

Lemma install_installed c net l w :
  install c net l
    {| servers := servers w; metrics := metrics w; log := log w;
       calls := (calls w ++ [resolveCall c])%list |}
  = (selector_SetServers net (Strings l), installed c net l w).
Proof.
  unfold install, installed, bind, Gauge_Set, SetServers. simpl.
  rewrite Strings_length, <- !app_assoc. simpl.
  destruct (selector_SetServers net (Strings l)); reflexivity.
Qed.

(** A cycle whose resolution succeeds sorts, sets the gauge and calls
    [SetServers]; its result is [SetServers]'s. *)
Lemma update_resolved c net w l :
  resolve c net = inr l ->
  updateMemcacheServers c net w
  = (selector_SetServers net (Strings l), installed c net l w).
Proof.
  unfold resolve, updateMemcacheServers, resolveCall.
  intros H. rewrite <- (install_installed c net l w). unfold resolveCall.
  destruct (addresses c) as [|a rest] eqn:Ha; simpl.
  - unfold bind, LookupSRV, record, ret. simpl.
    destruct (net_LookupSRV net (service c) "tcp" (hostname c))
      as [[cname addrs] [e|]]; [discriminate|].
    injection H as <-. now rewrite appendTargets_targets.
  - injection H as <-. reflexivity.
Qed.

(** A cycle whose lookup fails returns the error and touches nothing
    but the trace of calls. *)
Lemma update_failed c net w e :
  resolve c net = inl e ->
  updateMemcacheServers c net w
  = (Some e, {| servers := servers w; metrics := metrics w; log := log w;
                calls := (calls w ++ [resolveCall c])%list |}).
Proof.
  unfold resolve, updateMemcacheServers, resolveCall.
  destruct (addresses c) as [|a rest] eqn:Ha; simpl; [|discriminate].
  unfold bind, LookupSRV, record, ret. simpl.
  destruct (net_LookupSRV net (service c) "tcp" (hostname c))
    as [[cname addrs] [e'|]]; [|discriminate].
  now intros [= ->].
Qed.

Lemma count_app p (l1 l2 : list call) :
  count p (l1 ++ l2) = count p l1 + count p l2.
Proof. unfold count. now rewrite filter_app, length_app. Qed.

(** The SRV branch, when a client reaches it: one ["target:port"] per
    record, whatever the records' priority and weight. *)
Lemma srv_branch_targets c net :
  addresses c = [] ->
  resolve c net =
    match net_LookupSRV net (service c) "tcp" (hostname c) with
    | (_, _, Some e) => inl e
    | (_, addrs, None) =>
        inr (map (fun srv => Target srv +:+ ":" +:+ Itoa (Port srv)) addrs)
    end.
Proof. unfold resolve. now intros ->. Qed.

(** The client the constructor builds. *)
Definition clientOf (cfg : MemcachedClientConfig) (name : string)
  : memcachedClient :=
  {| client_Timeout := Timeout cfg;
     client_MaxIdleConns := MaxIdleConns cfg;
     serverList := if ConsistentHash cfg
                   then MemcachedJumpHashSelector else ServerList;
     hostname := Host cfg;
     service := Service cfg;
     addresses := Split (Addresses cfg) ",";
     numServers := name |}.

(** The world the constructor's first cycle starts from. *)
Definition fresh (name : string) (w : World) : World :=
  {| servers := [];
     metrics := match metrics w !! name with
                | Some _ => metrics w
                | None => <[name := 0%Z]> (metrics w)
                end;
     log := log w; calls := calls w |}.

Definition errorEntry (e : error) : logEntry :=
  {| lvl := LevelError; msg := "error setting memcache servers to host";
     cause := e |}.

Definition warnEntry (e : error) : logEntry :=
  {| lvl := LevelWarn; msg := "error updating memcache servers"; cause := e |}.

Lemma clientOf_resolve cfg name net :
  resolve (clientOf cfg name) net
  = inr (provider_Addresses net (Split (Addresses cfg) ",")).
Proof.
  unfold resolve. simpl.
  destruct (Split (Addresses cfg) ",") eqn:H; [|reflexivity].
  now apply Split_nonempty in H.
Qed.

Lemma clientOf_resolveCall cfg name :
  resolveCall (clientOf cfg name) = CallResolve (Split (Addresses cfg) ",").
Proof.
  unfold resolveCall. simpl.
  destruct (Split (Addresses cfg) ",") eqn:H; [|reflexivity].
  now apply Split_nonempty in H.
Qed.

Lemma NewMemcachedClient_unfold cfg name net w :
  NewMemcachedClient cfg name net w =
  let c := clientOf cfg name in
  let r := updateMemcacheServers c net (fresh name w) in
  let w1 := match fst r with
            | Some e => snd (Log LevelError
                               "error setting memcache servers to host" e (snd r))
            | None => snd r
            end in
  (c, snd (go_updateLoop (UpdateInterval cfg) w1)).
Proof.
  unfold NewMemcachedClient, bind, newSelector, WithLabelValues. simpl.
  unfold clientOf, fresh. simpl.
  destruct (updateMemcacheServers _ net _) as [[e|] w1]; reflexivity.
Qed.

(** What the constructor does, for every configuration. *)
Lemma NewMemcachedClient_spec cfg name net w :
  let l := provider_Addresses net (Split (Addresses cfg) ",") in
  let err := selector_SetServers net (Strings l) in
  NewMemcachedClient cfg name net w =
  (clientOf cfg name,
   {| servers := match err with Some _ => [] | None => Strings l end;
      metrics := <[name := Z.of_nat (length l)]> (metrics w);
      log := (log w ++ match err with Some e => [errorEntry e] | None => [] end)%list;
      calls := (calls w ++ [CallResolve (Split (Addresses cfg) ",");
                            CallGaugeSet name (Z.of_nat (length l));
                            CallSetServers (Strings l);
                            CallGo_updateLoop (UpdateInterval cfg)])%list |}).
Proof.
  intros l err. rewrite NewMemcachedClient_unfold. cbv zeta.
  rewrite (update_resolved _ net _ _ (clientOf_resolve cfg name net)).
  fold l. fold err. unfold installed. rewrite clientOf_resolveCall. fold l err.
  cbn [fst snd]. f_equal.
  assert (Hm : <[name := Z.of_nat (length l)]> (metrics (fresh name w))
               = <[name := Z.of_nat (length l)]> (metrics w)).
  { unfold fresh; cbn [metrics]. destruct (metrics w !! name); [reflexivity|].
    apply insert_insert_eq. }
  unfold fresh in Hm; cbn [metrics] in Hm.
  destruct err as [e|]; unfold go_updateLoop, record, Log, errorEntry, fresh;
    cbn [servers metrics log calls snd clientOf numServers];
    rewrite ?Hm, <- ?app_assoc, ?app_nil_r; reflexivity.
Qed.

(** No client the constructor builds ever reaches the SRV branch. *)
Lemma constructed_never_looks_up cfg name net w :
  count isLookupSRV (calls (snd (updateMemcacheServers (clientOf cfg name) net w)))
  = count isLookupSRV (calls w).
Proof.
  rewrite (update_resolved _ net _ _ (clientOf_resolve cfg name net)).
  unfold installed. cbn [snd calls]. rewrite count_app, clientOf_resolveCall.
  unfold count at 2. simpl. lia.
Qed.

(** C1 (the code departs from the claim here): a client configured with a
    hostname and a service name only, the address list left empty, does not
    perform an SRV lookup.  [strings.Split] of the empty string is the
    one-element list of the empty string, so [addresses] is never empty: the
    constructor's cycle hands that list to the DNS provider and installs what
    the provider holds, and no cycle of this client ever calls
    [net.LookupSRV]. *)
Theorem C1_empty_addresses_skip_SRV_lookup
    (host svc name : string) (timeout idle interval : Z) (hash : bool)
    (net : Network) (w : World) :
  let cfg := {| Host := host; Service := svc; Addresses := "";
                Timeout := timeout; MaxIdleConns := idle;
                UpdateInterval := interval; ConsistentHash := hash |} in
  let c := fst (NewMemcachedClient cfg name net w) in
  let w' := snd (NewMemcachedClient cfg name net w) in
  let l := provider_Addresses net [""] in
  addresses c = [""]
  /\ calls w' = (calls w ++ [CallResolve [""];
                             CallGaugeSet name (Z.of_nat (length l));
                             CallSetServers (Strings l);
                             CallGo_updateLoop interval])%list
  /\ forall net' w1,
       count isLookupSRV (calls (snd (updateMemcacheServers c net' w1)))
       = count isLookupSRV (calls w1).
Proof.
  intros cfg c w' l. subst c w'. rewrite NewMemcachedClient_spec.
  cbn [fst snd calls]. repeat split.
  intros net' w1. apply constructed_never_looks_up.
Qed.

(** C2: when resolution succeeds with the addresses [l], the list handed to
    [SetServers] (and installed, when [SetServers] accepts it) is [l] sorted
    in increasing byte order; another order of the same addresses gives the
    same call; and a client configured with the static addresses
    ["b:1,a:1,c:1"] has ["a:1"; "b:1"; "c:1"] as its active list once
    constructed, in whatever order the provider hands them back. *)
Theorem C2_installs_sorted_addresses c net w l :
  resolve c net = inr l ->
  let err := fst (updateMemcacheServers c net w) in
  let w' := snd (updateMemcacheServers c net w) in
  (exists before, calls w' = (before ++ [CallSetServers (Strings l)])%list
                  /\ count isSetServers before = count isSetServers (calls w))
  /\ (err = None -> servers w' = Strings l)
  /\ StronglySorted le (Strings l)
  /\ Permutation l (Strings l)
  /\ (forall net2 w2 l2,
        resolve c net2 = inr l2 -> Permutation l l2 ->
        exists before,
          calls (snd (updateMemcacheServers c net2 w2))
          = (before ++ [CallSetServers (Strings l)])%list)
  /\ (forall name net0 w0,
        Permutation (provider_Addresses net0 ["b:1"; "a:1"; "c:1"])
                    ["b:1"; "a:1"; "c:1"] ->
        selector_SetServers net0 ["a:1"; "b:1"; "c:1"] = None ->
        servers (snd (NewMemcachedClient (staticConfig "b:1,a:1,c:1") name net0 w0))
        = ["a:1"; "b:1"; "c:1"]).
Proof.
  intros H err w'. subst err w'. rewrite (update_resolved _ _ _ _ H).
  cbn [fst snd]. split; [|split; [|split; [|split; [|split]]]].
  - exists (calls w ++ [resolveCall c;
                        CallGaugeSet (numServers c) (Z.of_nat (length l))])%list.
    unfold installed; cbn [calls]. rewrite <- app_assoc. split; [reflexivity|].
    rewrite count_app. unfold count at 2, resolveCall.
    destruct (addresses c); simpl; lia.
  - intros Herr. unfold installed; cbn [servers]. now rewrite Herr.
  - apply Strings_sorted.
  - apply Strings_perm.
  - intros net2 w2 l2 H2 Hp. rewrite (update_resolved _ _ _ _ H2).
    rewrite (Strings_perm_eq _ _ Hp).
    exists (calls w2 ++ [resolveCall c;
                         CallGaugeSet (numServers c) (Z.of_nat (length l2))])%list.
    unfold installed; cbn [snd calls]. now rewrite <- app_assoc.
  - intros name net0 w0 Hp Hsel. rewrite NewMemcachedClient_spec.
    cbn [snd servers staticConfig Addresses].
    change (Split "b:1,a:1,c:1" ",") with ["b:1"; "a:1"; "c:1"].
    rewrite (Strings_perm_eq _ _ Hp).
    change (Strings ["b:1"; "a:1"; "c:1"]) with ["a:1"; "b:1"; "c:1"].
    now rewrite Hsel.
Qed.

Lemma C2_installs_sorted_addresses_witness :
  resolve srvClient dnsUp = inr ["mc-1.svc.:11211"; "mc-0.svc.:11211"]
  /\ servers (snd (updateMemcacheServers srvClient dnsUp emptyWorld))
     = ["mc-0.svc.:11211"; "mc-1.svc.:11211"].
Proof.
  split; [reflexivity|].
  apply (C2_installs_sorted_addresses srvClient dnsUp emptyWorld
           ["mc-1.svc.:11211"; "mc-0.svc.:11211"] eq_refl).
  reflexivity.
Defined.

(** C3: a tick of the loop whose lookup fails with [e] leaves the
    selector's server list and the gauges as they were, makes no call to
    [SetServers] or to the gauge, appends one warning-level entry carrying
    [e] to the log, and the loop goes on with the events that follow. *)
Theorem C3_failed_tick_keeps_servers c net w e evs :
  resolve c net = inl e ->
  let w' := snd (tick c net w) in
  servers w' = servers w
  /\ metrics w' = metrics w
  /\ calls w' = (calls w ++ [CallLookupSRV (service c) "tcp" (hostname c)])%list
  /\ log w' = (log w ++ [warnEntry e])%list
  /\ updateLoop c (Tick net :: evs) w = updateLoop c evs w'.
Proof.
  intros H w'.
  assert (Hc : resolveCall c = CallLookupSRV (service c) "tcp" (hostname c)).
  { unfold resolve in H. unfold resolveCall.
    destruct (addresses c); [reflexivity|discriminate]. }
  assert (Ht : tick c net w =
               (tt, {| servers := servers w; metrics := metrics w;
                       log := (log w ++ [warnEntry e])%list;
                       calls := (calls w ++ [resolveCall c])%list |})).
  { unfold tick, bind. rewrite (update_failed _ _ _ _ H). reflexivity. }
  subst w'. cbn [updateLoop]. unfold bind at 1. rewrite Ht, Hc.
  cbn [snd servers metrics calls log]. repeat split.
Qed.

Lemma C3_failed_tick_keeps_servers_witness :
  resolve srvClient dnsDown = inl "no such host"
  /\ servers (snd (tick srvClient dnsDown
                    (snd (tick srvClient dnsUp emptyWorld))))
     = ["mc-0.svc.:11211"; "mc-1.svc.:11211"].
Proof.
  split; [reflexivity|].
  etransitivity.
  - apply (C3_failed_tick_keeps_servers srvClient dnsDown
             (snd (tick srvClient dnsUp emptyWorld)) "no such host" []).
    reflexivity.
  - reflexivity.
Defined.

(** C7: a cycle sets the client's gauge exactly when its resolution
    succeeds, to the number of addresses resolved, before and whatever
    [SetServers] answers; a failed lookup leaves every gauge alone.  An empty
    result is a success: the gauge becomes 0 and [SetServers] is called with
    the empty list. *)
Theorem C7_gauge_counts_resolved c net w :
  let r := updateMemcacheServers c net w in
  match resolve c net with
  | inr l =>
      metrics (snd r) = <[numServers c := Z.of_nat (length l)]> (metrics w)
      /\ calls (snd r)
         = (calls w ++ [resolveCall c;
                        CallGaugeSet (numServers c) (Z.of_nat (length l));
                        CallSetServers (Strings l)])%list
      /\ fst r = selector_SetServers net (Strings l)
      /\ (l = [] -> metrics (snd r) !! numServers c = Some 0%Z
                    /\ fst r = selector_SetServers net [])
  | inl e =>
      metrics (snd r) = metrics w
      /\ calls (snd r) = (calls w ++ [resolveCall c])%list
      /\ count isGaugeSet (calls (snd r)) = count isGaugeSet (calls w)
      /\ fst r = Some e
  end.
Proof.
  intros r. subst r. destruct (resolve c net) as [e|l] eqn:H.
  - rewrite (update_failed _ _ _ _ H). cbn [fst snd metrics calls].
    repeat split. rewrite count_app. unfold count at 2, resolveCall.
    destruct (addresses c); simpl; lia.
  - rewrite (update_resolved _ _ _ _ H). unfold installed.
    cbn [fst snd metrics calls]. repeat split; subst l; cbn [length Strings].
    + apply lookup_insert_eq.
    + reflexivity.
Qed.

(** C5: the constructor runs one resolution cycle, from the fresh
    selector, before it returns: its calls are those of that one cycle (one
    resolution, one [SetServers]) followed by the start of the loop.  When
    the cycle returns an error, one error-level entry carrying it is logged;
    the client is returned and the loop started all the same. *)
Theorem C5_constructor_resolves_once cfg name net w :
  let c := fst (NewMemcachedClient cfg name net w) in
  let w' := snd (NewMemcachedClient cfg name net w) in
  let r := updateMemcacheServers c net (fresh name w) in
  c = clientOf cfg name
  /\ (exists made,
        calls (snd r) = (calls w ++ made)%list
        /\ calls w' = (calls w ++ made ++ [CallGo_updateLoop (UpdateInterval cfg)])%list
        /\ count isResolution made = 1
        /\ count isSetServers made = 1)
  /\ servers w' = servers (snd r)
  /\ metrics w' = metrics (snd r)
  /\ log (snd r) = log w
  /\ log w' = (log w ++ match fst r with
                        | Some e => [errorEntry e]
                        | None => []
                        end)%list.
Proof.
  intros c w' r. subst c w' r. rewrite NewMemcachedClient_spec. cbn [fst snd].
  rewrite (update_resolved _ net _ _ (clientOf_resolve cfg name net)).
  unfold installed. rewrite clientOf_resolveCall.
  cbn [fst snd servers metrics log calls fresh clientOf numServers].
  set (l := provider_Addresses net (Split (Addresses cfg) ",")).
  split; [reflexivity|]. split; [|split; [|split; [|split]]].
  - exists [CallResolve (Split (Addresses cfg) ",");
            CallGaugeSet name (Z.of_nat (length l));
            CallSetServers (Strings l)].
    repeat split.
  - destruct (selector_SetServers net (Strings l)); reflexivity.
  - destruct (metrics w !! name); [reflexivity|].
    symmetry. apply insert_insert_eq.
  - reflexivity.
  - reflexivity.
Qed.

(** *** [Stop] and the loop *)

(** What every reachable state satisfies: the wait group's counter is 1
    while the loop runs and 0 once it has exited, and [Stop] returns only
    after the counter has reached 0. *)
Definition stop_invariant (s : Sys) : Prop :=
  match loop s with
  | Selecting => wait s = 1 /\ stop s <> Returned
  | Exited => wait s = 0
  end.

Lemma step_invariant c a s s' :
  stop_invariant s -> step c a s = Some s' -> stop_invariant s'.
Proof.
  unfold stop_invariant. intros Hinv Hstep. destruct a; simpl in Hstep.
  - (* a tick *)
    destruct (loop s); [|discriminate].
    injection Hstep as <-. exact Hinv.
  - (* the loop takes the quit case *)
    destruct (loop s); [|discriminate].
    destruct (quit_closed s); [|discriminate].
    injection Hstep as <-. cbn [loop wait]. destruct Hinv as [-> _]. reflexivity.
  - (* close(c.quit) *)
    destruct (stop s); try discriminate.
    destruct (quit_closed s); [discriminate|].
    injection Hstep as <-. cbn [loop wait stop].
    destruct (loop s); [|exact Hinv].
    split; [apply Hinv|discriminate].
  - (* c.wait.Wait() returns *)
    destruct (stop s); try discriminate.
    destruct (wait s =? 0)%nat eqn:Hw; [|discriminate].
    apply Nat.eqb_eq in Hw.
    injection Hstep as <-. cbn [loop wait stop].
    destruct (loop s); [|exact Hinv].
    destruct Hinv as [H1 _]. congruence.
Qed.

Lemma run_invariant c acts : forall s s',
  stop_invariant s -> run c acts s = Some s' -> stop_invariant s'.
Proof.
  induction acts as [|a acts IH]; simpl; intros s s' Hinv Hrun.
  - now injection Hrun as <-.
  - destruct (step c a s) as [s1|] eqn:Hstep; [|discriminate].
    eapply IH; [|exact Hrun]. eapply step_invariant; eassumption.
Qed.

(** Once the loop has exited and [Stop] has returned, nothing can move. *)
Lemma stopped_is_final c a s :
  loop s = Exited -> stop s = Returned -> step c a s = None.
Proof. unfold step. intros -> ->. destruct a; reflexivity. Qed.

(** C4: in every interleaving of the loop with [Stop], once [Stop] has
    returned the loop has exited, and whatever is scheduled afterwards the
    world stays as it is: no further [SetServers] call, no further gauge
    update. *)
Theorem C4_no_update_after_Stop c w0 acts s :
  run c acts (started w0) = Some s ->
  stop s = Returned ->
  loop s = Exited
  /\ quit_closed s = true
  /\ forall acts' s', run c acts' s = Some s' ->
       world s' = world s
       /\ servers (world s') = servers (world s)
       /\ metrics (world s') = metrics (world s)
       /\ calls (world s') = calls (world s).
Proof.
  intros Hrun Hstop.
  assert (Hinv : stop_invariant s).
  { eapply run_invariant; [|exact Hrun]. unfold stop_invariant. simpl.
    split; [reflexivity|discriminate]. }
  assert (Hloop : loop s = Exited).
  { unfold stop_invariant in Hinv. destruct (loop s); [|reflexivity].
    destruct Hinv as [_ Hn]. contradiction. }
  split; [exact Hloop|]. split.
  - clear Hinv. revert s Hrun Hstop Hloop.
    assert (Hq : forall acts s0 s, run c acts s0 = Some s ->
                   (loop s0 = Exited -> quit_closed s0 = true) ->
                   loop s = Exited -> quit_closed s = true).
    { clear. induction acts as [|a acts IH]; simpl; intros s0 s Hrun H0 Hl.
      - injection Hrun as <-. auto.
      - destruct (step c a s0) as [s1|] eqn:Hstep; [|discriminate].
        eapply IH; [exact Hrun| |exact Hl].
        unfold step in Hstep.
        destruct a; destruct (loop s0) eqn:Hl0; destruct (stop s0);
          try discriminate;
          repeat match type of Hstep with
                 | (if ?b then _ else _) = _ => destruct b eqn:?; try discriminate
                 end;
          injection Hstep as <-; cbn [loop quit_closed]; rewrite ?Hl0;
          auto; try discriminate. }
    intros s Hrun _ Hloop. eapply Hq; [exact Hrun| |exact Hloop].
    simpl. discriminate.
  - intros acts' s' Hrun'. destruct acts' as [|a acts']; simpl in Hrun'.
    + injection Hrun' as <-. repeat split.
    + now rewrite (stopped_is_final c a s Hloop Hstop) in Hrun'.
Qed.

Lemma C4_no_update_after_Stop_witness :
  exists s,
    run srvClient [LoopTick dnsUp; StopClose; LoopTick dnsDown; LoopQuit;
                   StopWaitReturns] (started emptyWorld) = Some s
    /\ stop s = Returned
    /\ loop s = Exited
    /\ run srvClient [LoopTick dnsUp] s = None.
Proof.
  eexists. split; [reflexivity|]. split; [reflexivity|].
  split.
  - refine (proj1 (C4_no_update_after_Stop srvClient emptyWorld
                     [LoopTick dnsUp; StopClose; LoopTick dnsDown; LoopQuit;
                      StopWaitReturns] _ eq_refl eq_refl)).
  - reflexivity.
Defined.

End CacheFacts.
(** ** More about the memcached client *)

Module CacheExtras.
Import GoStrings GoStringsFacts Cache CacheFacts.
Local Open Scope go_scope.

(** A sorted list is what [sort.Strings] returns for it. *)
Lemma Strings_sorted_id (l : list string) :
  StronglySorted le l -> Strings l = l.
Proof.
  intros Hs. apply sorted_unique; [apply Strings_sorted|exact Hs|].
  symmetry. apply Strings_perm.
Qed.

(** [SetServers] refusing the list: the cycle returns that error and the
    selector keeps its servers, but the gauge has already been set to the
    size of the refused list. *)
Theorem refused_list_still_sets_gauge c net w l e :
  resolve c net = inr l ->
  selector_SetServers net (Strings l) = Some e ->
  let r := updateMemcacheServers c net w in
  fst r = Some e
  /\ servers (snd r) = servers w
  /\ metrics (snd r) !! numServers c = Some (Z.of_nat (length l)).
Proof.
  intros Hres Hsel r. subst r. rewrite (update_resolved _ _ _ _ Hres).
  unfold installed. cbn [fst snd servers metrics]. rewrite Hsel.
  repeat split. apply lookup_insert_eq.
Qed.

Definition refusing : Network :=
  {| provider_Addresses := fun addrs => addrs;
     net_LookupSRV := fun _ _ _ => ("", [], None);
     selector_SetServers := fun _ => Some "lookup mc-9.svc.: no such host" |}.

Definition staticClient : memcachedClient :=
  {| client_Timeout := 100; client_MaxIdleConns := 16;
     serverList := ServerList; hostname := ""; service := "memcached";
     addresses := ["mc-9.svc.:11211"; "mc-1.svc.:11211"];
     numServers := "chunks" |}.

Lemma refused_list_still_sets_gauge_witness :
  let w := snd (updateMemcacheServers staticClient dnsUp emptyWorld) in
  let w' := snd (updateMemcacheServers staticClient refusing w) in
  servers w' = ["mc-1.svc.:11211"; "mc-9.svc.:11211"]
  /\ metrics w' !! "chunks" = Some 2%Z.
Proof.
  cbv zeta.
  destruct (refused_list_still_sets_gauge staticClient refusing
              (snd (updateMemcacheServers staticClient dnsUp emptyWorld))
              ["mc-9.svc.:11211"; "mc-1.svc.:11211"]
              "lookup mc-9.svc.: no such host" eq_refl eq_refl)
    as (_ & Hs & Hm).
  split; [rewrite Hs; reflexivity|exact Hm].
Defined.

(** After a cycle that returns no error, the selector's list is sorted and
    the client's gauge is its length. *)
Theorem successful_cycle_invariant c net w :
  fst (updateMemcacheServers c net w) = None ->
  let w' := snd (updateMemcacheServers c net w) in
  StronglySorted le (servers w')
  /\ metrics w' !! numServers c = Some (Z.of_nat (length (servers w'))).
Proof.
  intros Hok w'. subst w'. destruct (resolve c net) as [e|l] eqn:Hres.
  - rewrite (update_failed _ _ _ _ Hres) in Hok. discriminate.
  - rewrite (update_resolved _ _ _ _ Hres) in *. cbn [fst snd] in *.
    unfold installed. cbn [servers metrics]. rewrite Hok. split.
    + apply Strings_sorted.
    + rewrite Strings_length. apply lookup_insert_eq.
Qed.

Lemma successful_cycle_invariant_witness :
  metrics (snd (updateMemcacheServers staticClient dnsUp emptyWorld))
    !! "chunks" = Some 2%Z.
Proof.
  exact (proj2 (successful_cycle_invariant staticClient dnsUp emptyWorld eq_refl)).
Defined.

Lemma update_frame c net w :
  let w' := snd (updateMemcacheServers c net w) in
  log w' = log w
  /\ (forall name, name <> numServers c -> metrics w' !! name = metrics w !! name)
  /\ (exists made, calls w' = (calls w ++ made)%list)
  /\ (servers w' = servers w \/ StronglySorted le (servers w')).
Proof.
  intros w'. subst w'. destruct (resolve c net) as [e|l] eqn:Hres.
  - rewrite (update_failed _ _ _ _ Hres). cbn [snd log metrics calls servers].
    repeat split; eauto.
  - rewrite (update_resolved _ _ _ _ Hres). unfold installed.
    cbn [snd log metrics calls servers]. split; [reflexivity|]. split; [|split].
    + intros name Hne. now rewrite lookup_insert_ne.
    + eauto.
    + destruct (selector_SetServers net (Strings l)); [now left|].
      right. apply Strings_sorted.
Qed.

(** What a cycle never touches: the log, and the gauges of other names.
    Its calls are appended to those made before, and the selector's list is
    either the old one or a sorted one. *)
Theorem cycle_frame c net w :
  let w' := snd (updateMemcacheServers c net w) in
  log w' = log w
  /\ (forall name, name <> numServers c -> metrics w' !! name = metrics w !! name)
  /\ (exists made, calls w' = (calls w ++ made)%list)
  /\ (servers w' = servers w \/ StronglySorted le (servers w')).
Proof. apply update_frame. Qed.

(** Two cycles in a row that resolve the same addresses, in whatever
    order, and whose lists the selector accepts: the second changes neither
    the servers nor the gauges. *)
Theorem repeated_cycle_is_stable c net1 net2 w l1 l2 :
  resolve c net1 = inr l1 ->
  resolve c net2 = inr l2 ->
  Permutation l1 l2 ->
  selector_SetServers net1 (Strings l1) = None ->
  selector_SetServers net2 (Strings l2) = None ->
  let w1 := snd (updateMemcacheServers c net1 w) in
  let w2 := snd (updateMemcacheServers c net2 w1) in
  servers w2 = servers w1 /\ metrics w2 = metrics w1 /\ log w2 = log w1.
Proof.
  intros H1 H2 Hp Hs1 Hs2 w1 w2. subst w1 w2.
  rewrite (update_resolved _ _ _ _ H1), (update_resolved _ _ _ _ H2).
  unfold installed. cbn [snd servers metrics log]. rewrite Hs1, Hs2.
  rewrite (Strings_perm_eq _ _ Hp), (Permutation_length Hp).
  split; [reflexivity|]. split; [|reflexivity]. apply insert_insert_eq.
Qed.

Definition dnsShuffled : Network :=
  {| provider_Addresses := fun addrs => addrs;
     net_LookupSRV := fun _ _ _ => ("", [], None);
     selector_SetServers := fun _ => None |}.

Lemma repeated_cycle_is_stable_witness :
  let w1 := snd (updateMemcacheServers staticClient dnsUp emptyWorld) in
  let w2 := snd (updateMemcacheServers staticClient dnsShuffled w1) in
  servers w2 = servers w1 /\ metrics w2 = metrics w1 /\ log w2 = log w1.
Proof.
  apply (repeated_cycle_is_stable staticClient dnsUp dnsShuffled emptyWorld
           ["mc-1.svc.:11211"; "mc-9.svc.:11211"]
           ["mc-9.svc.:11211"; "mc-1.svc.:11211"] eq_refl eq_refl).
  - apply perm_swap.
  - reflexivity.
  - reflexivity.
Defined.

(** A resolution that is already sorted reaches [SetServers] as it is,
    duplicates included. *)
Theorem sorted_resolution_installed_verbatim c net w l :
  resolve c net = inr l ->
  StronglySorted le l ->
  calls (snd (updateMemcacheServers c net w))
  = (calls w ++ [resolveCall c;
                 CallGaugeSet (numServers c) (Z.of_nat (length l));
                 CallSetServers l])%list.
Proof.
  intros Hres Hs. rewrite (update_resolved _ _ _ _ Hres).
  unfold installed. cbn [snd calls]. now rewrite (Strings_sorted_id l Hs).
Qed.

Definition sortedClient : memcachedClient :=
  {| client_Timeout := 100; client_MaxIdleConns := 16;
     serverList := ServerList; hostname := ""; service := "memcached";
     addresses := ["a:1"; "a:1"; "b:1"]; numServers := "chunks" |}.

Lemma sorted_resolution_installed_verbatim_witness :
  calls (snd (updateMemcacheServers sortedClient dnsShuffled emptyWorld))
  = [CallResolve ["a:1"; "a:1"; "b:1"]; CallGaugeSet "chunks" 3;
     CallSetServers ["a:1"; "a:1"; "b:1"]].
Proof.
  apply (sorted_resolution_installed_verbatim sortedClient dnsShuffled
           emptyWorld ["a:1"; "a:1"; "b:1"] eq_refl).
  repeat constructor.
Defined.

(** *** The SRV branch *)

Lemma targets_same_endpoints (a b : list SRV) :
  map Target a = map Target b -> map Port a = map Port b ->
  targets a = targets b.
Proof.
  revert b. induction a as [|x a IH]; intros [|y b]; simpl; try discriminate.
  - reflexivity.
  - intros [= Ht Hts] [= Hp Hps]. unfold targets in *. simpl.
    rewrite Ht, Hp. f_equal. now apply IH.
Qed.

(** A client without addresses whose SRV lookup succeeds: one
    ["target:port"] per record goes (sorted) to [SetServers], the gauge is
    the number of records, and the records' priority and weight and the
    canonical name play no part. *)
Theorem srv_cycle_one_server_per_record c net w cname addrs :
  addresses c = [] ->
  net_LookupSRV net (service c) "tcp" (hostname c) = (cname, addrs, None) ->
  let w' := snd (updateMemcacheServers c net w) in
  metrics w' !! numServers c = Some (Z.of_nat (length addrs))
  /\ calls w'
     = (calls w ++
        [CallLookupSRV (service c) "tcp" (hostname c);
         CallGaugeSet (numServers c) (Z.of_nat (length addrs));
         CallSetServers
           (Strings (map (fun srv => Target srv +:+ ":" +:+ Itoa (Port srv))
                         addrs))])%list
  /\ forall net' cname' addrs',
       net_LookupSRV net' (service c) "tcp" (hostname c) = (cname', addrs', None) ->
       map Target addrs' = map Target addrs ->
       map Port addrs' = map Port addrs ->
       selector_SetServers net' = selector_SetServers net ->
       updateMemcacheServers c net' w = updateMemcacheServers c net w.
Proof.
  intros Hnil Hsrv w'. subst w'.
  assert (Hres : resolve c net = inr (targets addrs)).
  { unfold resolve. now rewrite Hnil, Hsrv. }
  assert (Hcall : resolveCall c = CallLookupSRV (service c) "tcp" (hostname c)).
  { unfold resolveCall. now rewrite Hnil. }
  rewrite (update_resolved _ _ _ _ Hres). unfold installed.
  cbn [snd metrics calls]. rewrite Hcall. unfold targets at 1 2.
  rewrite length_map. split; [apply lookup_insert_eq|]. split; [reflexivity|].
  intros net' cname' addrs' Hsrv' Ht Hp Hsel.
  assert (Hres' : resolve c net' = inr (targets addrs)).
  { unfold resolve. rewrite Hnil, Hsrv'.
    now rewrite (targets_same_endpoints _ _ Ht Hp). }
  rewrite (update_resolved _ _ _ _ Hres'). unfold installed, targets.
  rewrite Hsel, Hcall, !length_map. reflexivity.
Qed.

Lemma srv_cycle_one_server_per_record_witness :
  calls (snd (updateMemcacheServers srvClient dnsUp emptyWorld))
  = [CallLookupSRV "memcached" "tcp" "memcached.svc";
     CallGaugeSet "chunks" 2;
     CallSetServers ["mc-0.svc.:11211"; "mc-1.svc.:11211"]].
Proof.
  exact (proj1 (proj2 (srv_cycle_one_server_per_record srvClient dnsUp
                          emptyWorld _ _ eq_refl eq_refl))).
Defined.

(** *** The loop *)

Lemma tick_log c net w :
  log (snd (tick c net w))
  = (log w ++ match fst (updateMemcacheServers c net w) with
              | Some e => [warnEntry e]
              | None => []
              end)%list
  /\ metrics (snd (tick c net w)) = metrics (snd (updateMemcacheServers c net w)).
Proof.
  unfold tick, bind.
  pose proof (update_frame c net w) as (Hlog & _).
  destruct (updateMemcacheServers c net w) as [[e|] w1]; cbn [fst snd] in *.
  - unfold Log, warnEntry. cbn [snd log metrics]. now rewrite Hlog.
  - unfold ret. cbn [snd]. now rewrite Hlog, app_nil_r.
Qed.

Lemma updateLoop_tick c net evs w :
  updateLoop c (Tick net :: evs) w = updateLoop c evs (snd (tick c net w)).
Proof.
  cbn [updateLoop]. unfold bind. now destruct (tick c net w) as [[] w1].
Qed.

(** Whatever the loop goes through, all it adds to the log are
    warning-level entries, at most one per event, and it leaves the gauges
    of other names alone. *)
Theorem loop_logs_only_warnings c evs : forall w,
  let w' := snd (updateLoop c evs w) in
  (exists warns,
      log w' = (log w ++ warns)%list
      /\ Forall (fun en => lvl en = LevelWarn
                           /\ msg en = "error updating memcache servers") warns
      /\ length warns <= length evs)
  /\ forall name, name <> numServers c -> metrics w' !! name = metrics w !! name.
Proof.
  induction evs as [|[net|] evs IH]; intros w.
  - cbn [updateLoop]. unfold ret. cbn [snd]. split; [|reflexivity].
    exists []. rewrite app_nil_r. split; [reflexivity|].
    split; [constructor|cbn; lia].
  - rewrite updateLoop_tick. cbv zeta.
    pose proof (tick_log c net w) as [Hlog Hmet].
    pose proof (update_frame c net w) as (_ & Hframe & _).
    destruct (IH (snd (tick c net w))) as [(warns & Hw & Hall & Hlen) Hother].
    split.
    + exists (match fst (updateMemcacheServers c net w) with
              | Some e => [warnEntry e]
              | None => []
              end ++ warns)%list.
      rewrite Hw, Hlog, <- app_assoc. split; [reflexivity|].
      destruct (fst (updateMemcacheServers c net w)); cbn [app length].
      * split; [|lia]. constructor; [now split|exact Hall].
      * split; [exact Hall|lia].
    + intros name Hne. rewrite (Hother name Hne), Hmet. now apply Hframe.
  - cbn [updateLoop]. unfold ret. cbn [snd]. split; [|reflexivity].
    exists []. rewrite app_nil_r. split; [reflexivity|].
    split; [constructor|cbn; lia].
Qed.

(** The loop exits on the quit channel and on nothing else: what follows
    the quit is never processed, and a run without it is still selecting. *)
Theorem loop_exits_on_quit_only c evs : forall w,
  (forall rest,
      updateLoop c (evs ++ QuitClosed :: rest) w
      = updateLoop c (evs ++ [QuitClosed]) w)
  /\ (forall rest, fst (updateLoop c (evs ++ QuitClosed :: rest) w) = Exited)
  /\ (fst (updateLoop c evs w) = Exited <-> Exists (fun ev => ev = QuitClosed) evs).
Proof.
  induction evs as [|[net|] evs IH]; intros w.
  - cbn [updateLoop app]. split; [reflexivity|]. split; [reflexivity|].
    split; [discriminate|intros H; inversion H].
  - cbn [app].
    destruct (IH (snd (tick c net w))) as (H1 & H2 & H3).
    split; [intros rest; rewrite !updateLoop_tick; apply H1|].
    split; [intros rest; rewrite updateLoop_tick; apply H2|].
    rewrite updateLoop_tick. split.
    + intros H. right. now apply H3.
    + intros H. apply H3.
      inversion H as [? ? Habs|? ? Hex]; [discriminate|exact Hex].
  - cbn [updateLoop app]. split; [reflexivity|]. split; [reflexivity|].
    split; [intros _; now left|reflexivity].
Qed.

(** *** [Stop] and the loop, continued *)

(** What holds of every state reachable from the start: [quit] is closed
    exactly once [Stop] has been called, the loop selects until then, and
    the wait group counts the running loop. *)
Definition lifecycle_invariant (s : Sys) : Prop :=
  (stop s = NotCalled -> quit_closed s = false /\ loop s = Selecting)
  /\ (stop s <> NotCalled -> quit_closed s = true)
  /\ (loop s = Selecting -> wait s = 1)
  /\ (loop s = Exited -> wait s = 0).

Lemma step_lifecycle c a s s' :
  lifecycle_invariant s -> step c a s = Some s' -> lifecycle_invariant s'.
Proof.
  unfold lifecycle_invariant. intros (H1 & H2 & H3 & H4) Hstep.
  destruct a; simpl in Hstep.
  - destruct (loop s) eqn:Hl; [|discriminate].
    injection Hstep as <-. cbn [stop quit_closed loop wait]. auto.
  - destruct (loop s) eqn:Hl; [|discriminate].
    destruct (quit_closed s) eqn:Hq; [|discriminate].
    injection Hstep as <-. cbn [stop quit_closed loop wait].
    split; [|split; [|split]].
    + intros Hs. destruct (H1 Hs). congruence.
    + auto.
    + discriminate.
    + intros _. rewrite H3 by reflexivity. reflexivity.
  - destruct (stop s) eqn:Hs; try discriminate.
    destruct (quit_closed s) eqn:Hq; [discriminate|].
    injection Hstep as <-. cbn [stop quit_closed loop wait].
    split; [discriminate|]. auto.
  - destruct (stop s) eqn:Hs; try discriminate.
    destruct (wait s =? 0)%nat eqn:Hw; [|discriminate].
    injection Hstep as <-. cbn [stop quit_closed loop wait].
    split; [discriminate|]. split; [|auto].
    intros _. apply H2. discriminate.
Qed.

Lemma run_lifecycle c acts : forall s s',
  lifecycle_invariant s -> run c acts s = Some s' -> lifecycle_invariant s'.
Proof.
  induction acts as [|a acts IH]; simpl; intros s s' Hinv Hrun.
  - now injection Hrun as <-.
  - destruct (step c a s) as [s1|] eqn:Hstep; [|discriminate].
    eapply IH; [|exact Hrun]. eapply step_lifecycle; eassumption.
Qed.

Lemma started_lifecycle w0 : lifecycle_invariant (started w0).
Proof.
  unfold lifecycle_invariant, started. cbn.
  repeat split; try reflexivity; try discriminate. intros H. now elim H.
Qed.



(** [Stop] cannot get stuck: from every reachable state some schedule,
    with no further tick in it, lets [Stop] return, the world left as it
    was. *)
Theorem Stop_can_always_return c w0 acts s :
  run c acts (started w0) = Some s ->
  exists acts' s',
    run c acts' s = Some s'
    /\ stop s' = Returned
    /\ world s' = world s
    /\ Forall (fun a => forall net, a <> LoopTick net) acts'.
Proof.
  intros Hrun.
  pose proof (run_lifecycle c acts _ _ (started_lifecycle w0) Hrun)
    as (H1 & H2 & H3 & H4).
  destruct (stop s) eqn:Hs.
  - (* Stop not called yet *)
    destruct (H1 eq_refl) as [Hq Hl]. specialize (H3 Hl).
    exists [StopClose; LoopQuit; StopWaitReturns]. eexists.
    split; [|split; [|split]].
    + cbn [run step]. rewrite Hs, Hq. cbn [run step loop quit_closed stop wait].
      rewrite Hl, H3. cbn. reflexivity.
    + reflexivity.
    + reflexivity.
    + repeat (constructor; [intros net; discriminate|]). constructor.
  - (* Stop is waiting *)
    assert (Hq : quit_closed s = true) by (apply H2; discriminate).
    destruct (loop s) eqn:Hl.
    + specialize (H3 eq_refl).
      exists [LoopQuit; StopWaitReturns]. eexists. split; [|split; [|split]].
      * cbn [run step]. rewrite Hl, Hq. cbn [run step loop quit_closed stop wait].
        rewrite Hs, H3. cbn. reflexivity.
      * reflexivity.
      * reflexivity.
      * repeat (constructor; [intros net; discriminate|]). constructor.
    + specialize (H4 eq_refl).
      exists [StopWaitReturns]. eexists. split; [|split; [|split]].
      * cbn [run step]. rewrite Hs, H4. cbn. reflexivity.
      * reflexivity.
      * reflexivity.
      * repeat (constructor; [intros net; discriminate|]). constructor.
  - exists [], s. repeat split; [exact Hs|constructor].
Qed.

Lemma Stop_can_always_return_witness :
  exists acts' s',
    run srvClient acts'
        {| world := snd (tick srvClient dnsUp emptyWorld);
           quit_closed := true; wait := 1; loop := Selecting; stop := Waiting |}
    = Some s'
    /\ stop s' = Returned.
Proof.
  destruct (Stop_can_always_return srvClient emptyWorld
              [LoopTick dnsUp; StopClose]
              {| world := snd (tick srvClient dnsUp emptyWorld);
                 quit_closed := true; wait := 1; loop := Selecting;
                 stop := Waiting |} eq_refl)
    as (acts' & s' & Hrun & Hstop & _).
  exists acts', s'. split; [exact Hrun|exact Hstop].
Defined.

(** *** The constructor *)

Lemma Join_Split (s : string) : Join (Split s ",") "," = s.
Proof.
  induction s as [|ch rest IH]; [reflexivity|].
  cbn [Split]. pose proof (Split_nonempty rest ",") as Hne.
  destruct (Ascii.eqb ch ",") eqn:Hch.
  - apply Ascii.eqb_eq in Hch. subst ch.
    destruct (Split rest ",") as [|hd tl]; [contradiction|].
    cbn [Join]. cbn [Join] in IH. rewrite IH. reflexivity.
  - destruct (Split rest ",") as [|hd tl]; [contradiction|].
    cbn [Join] in *. destruct tl as [|hd2 tl].
    + now rewrite IH.
    + rewrite <- IH. reflexivity.
Qed.

Lemma Split_length (s : string) (sep : ascii) :
  length (Split s sep) = S (CountByte s sep).
Proof.
  induction s as [|ch rest IH]; [reflexivity|]. cbn [Split CountByte].
  pose proof (Split_nonempty rest sep) as Hne.
  destruct (Ascii.eqb ch sep).
  - cbn [length]. rewrite IH. reflexivity.
  - destruct (Split rest sep) as [|hd tl]; [contradiction|].
    cbn [length] in *. lia.
Qed.

Lemma Split_no_separator (s : string) (sep : ascii) :
  Forall (fun piece => ContainsByte piece sep = false) (Split s sep).
Proof.
  unfold ContainsByte. induction s as [|ch rest IH]; cbn [Split].
  - repeat constructor.
  - pose proof (Split_nonempty rest sep) as Hne.
    destruct (Ascii.eqb ch sep) eqn:Hch.
    + constructor; [reflexivity|exact IH].
    + destruct (Split rest sep) as [|hd tl]; [contradiction|].
      inversion IH as [|? ? Hhd Htl]; subst. constructor; [|exact Htl].
      cbn [CountByte]. rewrite Hch. exact Hhd.
Qed.

(** The constructor keeps every comma-separated piece of the configured
    addresses, empty ones included: joined with commas the client's
    addresses give the configured string back, there is one more of them
    than there are commas, and none contains a comma. *)
Theorem constructor_keeps_every_piece cfg name net w :
  let c := fst (NewMemcachedClient cfg name net w) in
  Join (addresses c) "," = Addresses cfg
  /\ length (addresses c) = S (CountByte (Addresses cfg) ",")
  /\ Forall (fun piece => ContainsByte piece "," = false) (addresses c).
Proof.
  intros c. subst c. rewrite NewMemcachedClient_spec. cbn [fst clientOf addresses].
  split; [apply Join_Split|]. split; [apply Split_length|apply Split_no_separator].
Qed.

(** What the constructor leaves behind when the selector refuses its
    first list, and what it never touches: the client has no servers at all
    although its gauge already counts the resolved addresses; the gauges of
    other names and the log entries made before are as they were. *)
Theorem constructor_frame cfg name net w :
  let c := fst (NewMemcachedClient cfg name net w) in
  let w' := snd (NewMemcachedClient cfg name net w) in
  let l := provider_Addresses net (addresses c) in
  metrics w' !! name = Some (Z.of_nat (length l))
  /\ (forall other, other <> name -> metrics w' !! other = metrics w !! other)
  /\ (forall e, selector_SetServers net (Strings l) = Some e ->
        servers w' = [] /\ log w' = (log w ++ [errorEntry e])%list)
  /\ (selector_SetServers net (Strings l) = None ->
        servers w' = Strings l /\ log w' = log w)
  /\ serverList c = (if ConsistentHash cfg
                     then MemcachedJumpHashSelector else ServerList).
Proof.
  intros c w' l. subst c w' l. rewrite NewMemcachedClient_spec.
  cbn [fst snd clientOf addresses serverList metrics servers log].
  split; [apply lookup_insert_eq|]. split; [|split; [|split]].
  - intros other Hne. now rewrite lookup_insert_ne.
  - intros e ->. split; reflexivity.
  - intros ->. split; [reflexivity|apply app_nil_r].
  - reflexivity.
Qed.

End CacheExtras.

(** ** Facts about the bucket function *)

Module JumpHashFacts.
Import JumpHash.
Local Open Scope Z_scope.

(** *** Binary digits and shifts *)

Lemma digits2_pos_bounds (p : positive) :
  2 ^ (Zpos (digits2_pos p) - 1) <= Zpos p < 2 ^ Zpos (digits2_pos p).
Proof.
  induction p as [p IH|p IH|]; cbn [digits2_pos].
  - rewrite Pos2Z.inj_succ. replace (Z.succ (Zpos (digits2_pos p)) - 1) with (Zpos (digits2_pos p)) by lia.
    rewrite Z.pow_succ_r by lia.
    assert (2 ^ Zpos (digits2_pos p) = 2 * 2 ^ (Zpos (digits2_pos p) - 1)).
    { rewrite <- Z.pow_succ_r by lia. f_equal. lia. }
    lia.
  - rewrite Pos2Z.inj_succ. replace (Z.succ (Zpos (digits2_pos p)) - 1) with (Zpos (digits2_pos p)) by lia.
    rewrite Z.pow_succ_r by lia.
    assert (2 ^ Zpos (digits2_pos p) = 2 * 2 ^ (Zpos (digits2_pos p) - 1)).
    { rewrite <- Z.pow_succ_r by lia. f_equal. lia. }
    lia.
  - simpl. lia.
Qed.

Lemma Zdigits2_bounds (z : Z) :
  0 < z -> 2 ^ (Zdigits2 z - 1) <= z < 2 ^ Zdigits2 z.
Proof. destruct z as [|p|p]; try lia. intros _. apply digits2_pos_bounds. Qed.

Lemma Zdigits2_pos (z : Z) : 0 < z -> 0 < Zdigits2 z.
Proof. destruct z; simpl; lia. Qed.

Lemma Zdigits2_unique (z k : Z) :
  2 ^ (k - 1) <= z < 2 ^ k -> 0 < z -> Zdigits2 z = k.
Proof.
  intros Hk Hz. pose proof (Zdigits2_bounds z Hz) as Hd.
  pose proof (Zdigits2_pos z Hz) as Hp.
  assert (0 < k).
  { destruct (Z.ltb_spec 0 k) as [|Hle]; [assumption|].
    assert (2 ^ k <= 2 ^ 0) by (apply Z.pow_le_mono_r; lia).
    change (2 ^ 0) with 1 in *. lia. }
  destruct (Z.lt_trichotomy (Zdigits2 z) k) as [Hlt|[Heq|Hgt]]; [|exact Heq|].
  - assert (2 ^ Zdigits2 z <= 2 ^ (k - 1)) by (apply Z.pow_le_mono_r; lia). lia.
  - assert (2 ^ k <= 2 ^ (Zdigits2 z - 1)) by (apply Z.pow_le_mono_r; lia). lia.
Qed.

Lemma shr_1_m (mrs : shr_record) :
  0 <= shr_m mrs -> shr_m (shr_1 mrs) = shr_m mrs / 2.
Proof.
  destruct mrs as [m r s]. cbn [shr_m]. intros Hm.
  destruct m as [|[p|p|]|p]; cbn [shr_1 shr_m]; try lia.
  all: try reflexivity.
  - apply Z.div_unique with 1; lia.
  - apply Z.div_unique with 0; lia.
Qed.

Lemma iter_shr_1_m (n : positive) : forall mrs : shr_record,
  0 <= shr_m mrs ->
  shr_m (SpecFloat.iter_pos shr_1 n mrs) = shr_m mrs / 2 ^ Zpos n.
Proof.
  induction n as [n IH|n IH|]; intros mrs Hm; cbn [SpecFloat.iter_pos].
  - assert (H1 : 0 <= shr_m (shr_1 mrs))
      by (rewrite shr_1_m by assumption; apply Z.div_pos; lia).
    assert (H2 : 0 <= shr_m (SpecFloat.iter_pos shr_1 n (shr_1 mrs)))
      by (rewrite IH by assumption; apply Z.div_pos; lia).
    rewrite IH, IH, shr_1_m by assumption.
    rewrite !Z.div_div by lia. f_equal.
    replace (Zpos n~1) with (1 + Zpos n + Zpos n) by lia.
    rewrite !Z.pow_add_r by lia. change (2 ^ 1) with 2. lia.
  - assert (H2 : 0 <= shr_m (SpecFloat.iter_pos shr_1 n mrs))
      by (rewrite IH by assumption; apply Z.div_pos; lia).
    rewrite IH, IH by assumption.
    rewrite !Z.div_div by lia. f_equal.
    replace (Zpos n~0) with (Zpos n + Zpos n) by lia.
    now rewrite Z.pow_add_r by lia.
  - now rewrite shr_1_m.
Qed.

(** The mantissa and exponent [shr] leaves, whatever the rounding bits. *)
Lemma shr_m_e (mrs : shr_record) (e n : Z) :
  0 <= shr_m mrs -> 0 <= n ->
  shr_m (fst (shr mrs e n)) = shr_m mrs / 2 ^ n /\ snd (shr mrs e n) = e + n.
Proof.
  intros Hm Hn. destruct n as [|p|p]; cbn [shr fst snd]; try lia.
  - rewrite Z.div_1_r. lia.
  - now rewrite iter_shr_1_m.
Qed.

Lemma shr_record_of_loc_m (m : Z) (l : location) :
  shr_m (shr_record_of_loc m l) = m.
Proof. destruct l as [|[]]; reflexivity. Qed.

Lemma round_nearest_even_cases (m : Z) (l : location) :
  round_nearest_even m l = m \/ round_nearest_even m l = m + 1.
Proof.
  destruct l as [|[]]; cbn [round_nearest_even]; auto.
  destruct (Z.even m); auto.
Qed.

(** *** Rounding to 53 bits *)

Lemma fexp_normal (e : Z) : -1021 <= e -> fexp prec emax e = e - 53.
Proof. unfold fexp, emin, prec, emax. lia. Qed.

Lemma pow2_split (a b : Z) : 0 <= a -> 0 <= b -> 2 ^ (a + b) = 2 ^ a * 2 ^ b.
Proof. intros. now apply Z.pow_add_r. Qed.

Lemma pow2_pos (a : Z) : 0 <= a -> 0 < 2 ^ a.
Proof. intros. now apply Z.pow_pos_nonneg. Qed.

Lemma binary_round_aux_normal (mx ex : Z) (lx : location) :
  let d := Zdigits2 mx in
  let m1 := mx / 2 ^ (d - 53) in
  2 ^ 52 <= mx -> -1000 <= ex -> ex + d <= 1000 ->
  exists (m : positive) (e : Z),
    binary_round_aux prec emax false mx ex lx = S754_finite false m e
    /\ 2 ^ 52 <= Zpos m < 2 ^ 53
    /\ ((e = ex + (d - 53) /\ (Zpos m = m1 \/ Zpos m = m1 + 1))
        \/ (e = ex + (d - 53) + 1 /\ Zpos m = 2 ^ 52 /\ m1 = 2 ^ 53 - 1)).
Proof.
  intros d m1 Hmx Hex Hd.
  assert (Hpos : 0 < mx) by (pose proof (pow2_pos 52); lia).
  pose proof (Zdigits2_bounds mx Hpos) as Hdig. fold d in Hdig.
  assert (Hd53 : 53 <= d).
  { destruct (Z.ltb_spec d 53) as [Hlt|]; [|assumption].
    assert (2 ^ d <= 2 ^ 52) by (apply Z.pow_le_mono_r; lia). lia. }
  assert (Hm1 : 2 ^ 52 <= m1 < 2 ^ 53).
  { subst m1. split.
    - apply Z.div_le_lower_bound; [apply pow2_pos; lia|].
      rewrite <- pow2_split by lia. replace (d - 53 + 52) with (d - 1) by lia. lia.
    - apply Z.div_lt_upper_bound; [apply pow2_pos; lia|].
      rewrite <- pow2_split by lia. replace (d - 53 + 53) with d by lia. lia. }
  unfold binary_round_aux, shr_fexp. fold d.
  rewrite fexp_normal by lia.
  replace (d + ex - 53 - ex) with (d - 53) by lia.
  destruct (shr_m_e (shr_record_of_loc mx lx) ex (d - 53)) as [Hs1 He1];
    [rewrite shr_record_of_loc_m; lia | lia |].
  rewrite shr_record_of_loc_m in Hs1. fold m1 in Hs1.
  destruct (shr (shr_record_of_loc mx lx) ex (d - 53)) as [mrs' e'].
  cbn [fst snd] in Hs1, He1. subst e'. rewrite Hs1.
  set (m2 := round_nearest_even m1 (loc_of_shr_record mrs')).
  assert (Hm2 : m2 = m1 \/ m2 = m1 + 1) by apply round_nearest_even_cases.
  clearbody m2. clear Hs1 mrs'.
  destruct (Z.ltb_spec m2 (2 ^ 53)) as [Hlt|Hge].
  - (* no carry *)
    assert (Hd2 : Zdigits2 m2 = 53) by (apply Zdigits2_unique; simpl; lia).
    rewrite Hd2, fexp_normal by lia.
    replace (53 + (ex + (d - 53)) - 53 - (ex + (d - 53))) with 0 by lia.
    cbn [shr shr_record_of_loc shr_m].
    destruct m2 as [|m|m]; try lia.
    replace (ex + (d - 53) <=? emax - prec) with true
      by (symmetry; apply Z.leb_le; unfold emax, prec; lia).
    exists m, (ex + (d - 53)). split; [reflexivity|]. split; [lia|]. left. lia.
  - (* the rounding carried into a 54th bit *)
    assert (Hm2' : m2 = 2 ^ 53) by lia. subst m2.
    change (Zdigits2 (2 ^ 53)) with 54.
    rewrite fexp_normal by lia.
    replace (54 + (ex + (d - 53)) - 53 - (ex + (d - 53))) with 1 by lia.
    cbn [shr shr_record_of_loc shr_m SpecFloat.iter_pos shr_1 Z.pow Z.pow_pos Pos.iter
         Pos.mul Z.mul].
    replace (ex + (d - 53) + 1 <=? emax - prec) with true
      by (symmetry; apply Z.leb_le; unfold emax, prec; lia).
    eexists _, (ex + (d - 53) + 1). split; [reflexivity|].
    split; [simpl; lia|]. right. split; [reflexivity|]. split; [reflexivity|]. lia.
Qed.

Lemma binary_round_aux_exact (m : positive) (e : Z) :
  Zdigits2 (Zpos m) = 53 -> -1000 <= e <= 900 ->
  binary_round_aux prec emax false (Zpos m) e loc_Exact = S754_finite false m e.
Proof.
  intros Hd He. unfold binary_round_aux, shr_fexp.
  rewrite Hd, fexp_normal by lia. replace (53 + e - 53 - e) with 0 by lia.
  cbn [shr shr_record_of_loc shr_m loc_of_shr_record round_nearest_even].
  rewrite Hd, fexp_normal by lia. replace (53 + e - 53 - e) with 0 by lia.
  cbn [shr shr_record_of_loc shr_m].
  replace (e <=? emax - prec) with true
    by (symmetry; apply Z.leb_le; unfold emax, prec; lia).
  reflexivity.
Qed.

Lemma iter_xO_value (k p : positive) :
  Zpos (Pos.iter xO p k) = Zpos p * 2 ^ Zpos k.
Proof.
  induction k as [|k IH] using Pos.peano_ind.
  - simpl. lia.
  - rewrite Pos.iter_succ, Pos2Z.inj_xO, IH, Pos2Z.inj_succ, Z.pow_succ_r by lia. lia.
Qed.

(** A positive integer below 2^53 converts exactly, to a normalised
    mantissa. *)
Lemma float64_of_int_exact (c : Z) :
  0 < c < 2 ^ 53 ->
  exists m e,
    float64_of_int c = S754_finite false m e
    /\ 2 ^ 52 <= Zpos m < 2 ^ 53
    /\ e = Zdigits2 c - 53
    /\ Zpos m = c * 2 ^ (- e).
Proof.
  intros Hc. destruct c as [|p|p]; try lia.
  pose proof (Zdigits2_bounds (Zpos p) ltac:(lia)) as Hd.
  pose proof (Zdigits2_pos (Zpos p) ltac:(lia)) as Hd0.
  set (d := Zdigits2 (Zpos p)) in *.
  assert (Hd53 : d <= 53).
  { destruct (Z.ltb_spec 53 d) as [Hlt|]; [|assumption].
    assert (2 ^ 53 <= 2 ^ (d - 1)) by (apply Z.pow_le_mono_r; lia). lia. }
  unfold float64_of_int, binary_normalize, binary_round.
  change (Zpos (digits2_pos p)) with d.
  rewrite fexp_normal by lia. unfold shl_align.
  replace (d + 0 - 53) with (d - 53) by lia.
  replace (d - 53 - 0) with (d - 53) by lia.
  destruct (d - 53) as [|k|k] eqn:Hk; try lia.
  - exists p, 0. split; [apply binary_round_aux_exact; [|lia]; change (Zdigits2 (Zpos p)) with d; lia|].
    replace d with 53 in * by lia. split; [simpl in Hd; lia|].
    split; [reflexivity|]. simpl. lia.
  - assert (Hv : Zpos (Pos.iter xO p k) = Zpos p * 2 ^ (53 - d)).
    { rewrite iter_xO_value. f_equal. f_equal. lia. }
    assert (Hb : 2 ^ 52 <= Zpos (Pos.iter xO p k) < 2 ^ 53).
    { rewrite Hv.
      assert (H52 : 2 ^ 52 = 2 ^ (d - 1) * 2 ^ (53 - d))
        by (rewrite <- pow2_split by lia; f_equal; lia).
      assert (H53 : 2 ^ 53 = 2 ^ d * 2 ^ (53 - d))
        by (rewrite <- pow2_split by lia; f_equal; lia).
      rewrite H52, H53. pose proof (pow2_pos (53 - d) ltac:(lia)).
      split; [apply Z.mul_le_mono_nonneg_r; lia|apply Z.mul_lt_mono_pos_r; lia]. }
    exists (Pos.iter xO p k), (Z.neg k). split.
    + apply binary_round_aux_exact; [|lia].
      apply Zdigits2_unique; change (53 - 1) with 52; lia.
    + split; [exact Hb|]. split; [lia|]. rewrite Hv. f_equal. f_equal. lia.
Qed.

Lemma pow2_le (a b : Z) : 0 <= a <= b -> 2 ^ a <= 2 ^ b.
Proof. intros. apply Z.pow_le_mono_r; lia. Qed.

Lemma pow2_lt_inv (a b : Z) : 0 <= b -> 2 ^ a < 2 ^ b -> a < b.
Proof. intros Hb H. apply (Z.pow_lt_mono_r_iff 2); lia. Qed.

(** 2^31 divided by an integer of [1, 2^31]: a normalised quotient
    between 1 and 2^31 + 2^-21. *)
Lemma div64_2_31 (my : positive) (ey dv : Z) :
  1 <= dv <= 2 ^ 31 ->
  2 ^ 52 <= Zpos my < 2 ^ 53 ->
  ey = Zdigits2 dv - 53 ->
  Zpos my = dv * 2 ^ (- ey) ->
  exists mr er,
    div64 (S754_finite false 4503599627370496 (-21)) (S754_finite false my ey)
    = S754_finite false mr er
    /\ 2 ^ 52 <= Zpos mr < 2 ^ 53
    /\ -52 <= er <= -21
    /\ Zpos mr * 2 ^ (er + 52) <= 2 ^ 83 + 2 ^ 31.
Proof.
  intros Hdv Hmy Hey Hval.
  pose proof (Zdigits2_bounds dv ltac:(lia)) as Hdig.
  pose proof (Zdigits2_pos dv ltac:(lia)) as Hdig0.
  assert (Hdig32 : Zdigits2 dv <= 32).
  { destruct (Z.ltb_spec 32 (Zdigits2 dv)) as [Hlt|]; [|assumption].
    assert (2 ^ 32 <= 2 ^ (Zdigits2 dv - 1)) by (apply pow2_le; lia). lia. }
  assert (Hey' : -52 <= ey <= -21) by lia.
  unfold div64, SFdiv, SFdiv_core_binary.
  change (Zdigits2 4503599627370496) with 53.
  replace (Zdigits2 (Zpos my)) with 53
    by (symmetry; apply Zdigits2_unique; change (53 - 1) with 52; lia).
  replace (53 + -21 - (53 + ey)) with (-21 - ey) by lia.
  rewrite fexp_normal by lia.
  replace (Z.min (-21 - ey - 53) (-21 - ey)) with (-74 - ey) by lia.
  replace (-21 - ey - (-74 - ey)) with 53 by lia.
  change (Z.shiftl 4503599627370496 53) with (2 ^ 105).
  pose proof (Z_div_mod (2 ^ 105) (Zpos my) ltac:(lia)) as Hdm.
  destruct (Z.div_eucl (2 ^ 105) (Zpos my)) as [q r]. destruct Hdm as [Hq Hr].
  assert (Hq52 : 2 ^ 52 <= q <= 2 ^ 53).
  { change (2 ^ 105) with (2 ^ 52 * 2 ^ 53) in Hq. nia. }
  cbn [xorb].
  set (lz := new_location (Zpos my) r). clearbody lz.
  destruct (binary_round_aux_normal q (-74 - ey) lz) as (m & e & Hres & Hm & Hcases);
    [lia | lia | |].
  { assert (Zdigits2 q <= 54); [|lia].
    pose proof (Zdigits2_bounds q ltac:(lia)) as Hdq.
    destruct (Z.ltb_spec 54 (Zdigits2 q)) as [Hlt|]; [|assumption].
    assert (2 ^ 54 <= 2 ^ (Zdigits2 q - 1)) by (apply pow2_le; lia). lia. }
  exists m, e. split; [exact Hres|]. split; [exact Hm|].
  (* q times the divisor's scale stays below 2^105 *)
  assert (Hscale : q * 2 ^ (- ey) <= 2 ^ 105).
  { assert (2 ^ (- ey) <= Zpos my).
    { rewrite Hval. pose proof (pow2_pos (- ey) ltac:(lia)). nia. }
    nia. }
  destruct (Z.ltb_spec q (2 ^ 53)) as [Hlt|Hge].
  - (* the quotient has 53 bits *)
    assert (Hdq : Zdigits2 q = 53)
      by (apply Zdigits2_unique; change (53 - 1) with 52; lia).
    rewrite Hdq in Hcases. replace (53 - 53) with 0 in Hcases by lia.
    change (2 ^ 0) with 1 in Hcases. rewrite Z.div_1_r in Hcases.
    assert (Hey22 : ey <= -22).
    { destruct (Z.eq_dec ey (-21)) as [->|]; [|lia].
      replace (Zdigits2 dv) with 32 in Hdig by lia.
      change (2 ^ (32 - 1)) with (2 ^ 31) in Hdig.
      assert (dv = 2 ^ 31) by lia. subst dv.
      change (2 ^ 31 * 2 ^ (- -21)) with (2 ^ 52) in Hval.
      rewrite Hval in Hq. change (2 ^ 105) with (2 ^ 52 * 2 ^ 53) in Hq.
      assert (2 ^ 52 * 2 ^ 53 < 2 ^ 52 * (q + 1)) by lia.
      assert (2 ^ 53 < q + 1) by (apply (Z.mul_lt_mono_pos_l (2 ^ 52)); lia).
      lia. }
    assert (Hq83 : q * 2 ^ (-22 - ey) <= 2 ^ 83).
    { replace (- ey) with ((-22 - ey) + 22) in Hscale by lia.
      rewrite pow2_split in Hscale by lia.
      change (2 ^ 105) with (2 ^ 83 * 2 ^ 22) in Hscale.
      pose proof (pow2_pos (-22 - ey) ltac:(lia)).
      change (2 ^ 22) with 4194304 in Hscale. lia. }
    assert (Hp30 : 2 ^ (-22 - ey) <= 2 ^ 30) by (apply pow2_le; lia).
    destruct Hcases as [[-> Hmq]|(-> & Hm52 & _)].
    + split; [lia|].
      replace (-74 - ey + 0 + 52) with (-22 - ey) by lia.
      pose proof (pow2_pos (-22 - ey) ltac:(lia)).
      change (2 ^ 31) with (2 * 2 ^ 30). nia.
    + split; [lia|]. rewrite Hm52.
      rewrite <- pow2_split by lia.
      assert (2 ^ (52 + (-74 - ey + 0 + 1 + 52)) <= 2 ^ 83) by (apply pow2_le; lia).
      lia.
  - (* the quotient is 2^53: the divisor is a power of two *)
    assert (q = 2 ^ 53) by lia. subst q.
    change (Zdigits2 (2 ^ 53)) with 54 in Hcases.
    change (2 ^ 53 / 2 ^ (54 - 53)) with (2 ^ 52) in Hcases.
    destruct Hcases as [[-> Hmq]|(_ & _ & Habs)]; [|lia].
    split; [lia|].
    replace (-74 - ey + (54 - 53) + 52) with (-21 - ey) by lia.
    assert (H1 : 2 ^ 52 * 2 ^ (-21 - ey) <= 2 ^ 83).
    { rewrite <- pow2_split by lia. apply pow2_le. lia. }
    assert (H2 : 2 ^ (-21 - ey) <= 2 ^ 31) by (apply pow2_le; lia).
    nia.
Qed.

(** An integer [c] of [1, 2^31) times a float of [1, 2^31 + 2^-21],
    converted to int64: at least [c], and inside int64. *)
Lemma mul64_trunc (mb mr : positive) (eb er c : Z) :
  1 <= c < 2 ^ 31 ->
  2 ^ 52 <= Zpos mb < 2 ^ 53 ->
  eb = Zdigits2 c - 53 ->
  Zpos mb = c * 2 ^ (- eb) ->
  2 ^ 52 <= Zpos mr < 2 ^ 53 ->
  -52 <= er <= -21 ->
  Zpos mr * 2 ^ (er + 52) <= 2 ^ 83 + 2 ^ 31 ->
  c <= int64_of_float (mul64 (S754_finite false mb eb) (S754_finite false mr er))
    < 2 ^ 63.
Proof.
  intros Hc Hmb Heb Hvb Hmr Her Hvr.
  pose proof (Zdigits2_bounds c ltac:(lia)) as Hdig.
  pose proof (Zdigits2_pos c ltac:(lia)) as Hdig0.
  assert (Hdig31 : Zdigits2 c <= 31).
  { destruct (Z.ltb_spec 31 (Zdigits2 c)) as [Hlt|]; [|assumption].
    assert (2 ^ 31 <= 2 ^ (Zdigits2 c - 1)) by (apply pow2_le; lia). lia. }
  assert (Heb' : -52 <= eb <= -22) by lia.
  unfold mul64, SFmul. cbn [xorb]. rewrite Pos2Z.inj_mul.
  set (mx := Zpos mb * Zpos mr). set (ex := eb + er).
  assert (Hmx : 2 ^ 104 <= mx < 2 ^ 106).
  { subst mx. change (2 ^ 104) with (2 ^ 52 * 2 ^ 52).
    change (2 ^ 106) with (2 ^ 53 * 2 ^ 53). nia. }
  pose proof (Zdigits2_bounds mx ltac:(lia)) as Hdx.
  pose proof (Zdigits2_pos mx ltac:(lia)) as Hdx0.
  set (d := Zdigits2 mx) in *.
  assert (Hd : 105 <= d <= 106).
  { split.
    - destruct (Z.ltb_spec d 105) as [Hlt|]; [|assumption].
      assert (2 ^ d <= 2 ^ 104) by (apply pow2_le; lia). lia.
    - destruct (Z.ltb_spec 106 d) as [Hlt|]; [|assumption].
      assert (2 ^ 106 <= 2 ^ (d - 1)) by (apply pow2_le; lia). lia. }
  (* the exact product is at least c ... *)
  assert (Hlow : c * 2 ^ (- ex) <= mx).
  { subst mx ex. replace (- (eb + er)) with (- eb + - er) by lia.
    rewrite pow2_split by lia. rewrite Z.mul_assoc, <- Hvb.
    assert (2 ^ (- er) <= 2 ^ 52) by (apply pow2_le; lia). nia. }
  (* ... and below 2^62 *)
  assert (Hup : d + ex <= 62).
  { assert (H1 : mx * 2 ^ (er + 52) <= Zpos mb * (2 ^ 83 + 2 ^ 31)).
    { subst mx. rewrite <- Z.mul_assoc. apply Z.mul_le_mono_nonneg_l; lia. }
    assert (H2 : Zpos mb * (2 ^ 83 + 2 ^ 31) < 2 ^ 114 * 2 ^ (- eb)).
    { rewrite Hvb. pose proof (pow2_pos (- eb) ltac:(lia)).
      assert ((c * (2 ^ 83 + 2 ^ 31)) < 2 ^ 114).
      { change (2 ^ 114) with (2 ^ 31 * 2 ^ 83).
        assert (c <= 2 ^ 31 - 1) by lia.
        change (2 ^ 31) with 2147483648 in *.
        change (2 ^ 83) with 9671406556917033397649408 in *. nia. }
      nia. }
    assert (H3 : 2 ^ (d - 1) * 2 ^ (er + 52) < 2 ^ 114 * 2 ^ (- eb)).
    { pose proof (pow2_pos (er + 52) ltac:(lia)). nia. }
    rewrite <- !pow2_split in H3 by lia.
    apply pow2_lt_inv in H3; [|lia]. subst ex. lia. }
  destruct (binary_round_aux_normal mx ex loc_Exact) as (m & e & Hres & Hm & Hcases);
    [lia | subst ex; lia | subst ex; fold d; lia |].
  fold d in Hcases. rewrite Hres. cbn [int64_of_float].
  set (m1 := mx / 2 ^ (d - 53)) in *.
  assert (Hm1 : forall t, 0 <= t -> t + (d - 53) = - ex -> c * 2 ^ t <= m1).
  { intros t Ht Hsum. subst m1.
    apply Z.div_le_lower_bound; [apply pow2_pos; lia|].
    rewrite Z.mul_comm, <- Z.mul_assoc, <- pow2_split, Hsum by lia. exact Hlow. }
  destruct (Z.leb_spec 0 e) as [He|He].
  - (* the result is an integer *)
    assert (Hv : c <= Zpos m * 2 ^ e <= 2 ^ 62).
    { split.
      - pose proof (pow2_pos e He). change (2 ^ 52) with (2 ^ 31 * 2 ^ 21) in Hm. nia.
      - destruct Hcases as [[-> Hmq]|(-> & -> & _)].
        + assert (2 ^ (ex + (d - 53)) <= 2 ^ 9) by (apply pow2_le; lia).
          change (2 ^ 62) with (2 ^ 53 * 2 ^ 9).
          pose proof (pow2_pos (ex + (d - 53)) He). nia.
        + rewrite <- pow2_split by lia. apply pow2_le. lia. }
    replace (Zpos m * 2 ^ e <? 2 ^ 63) with true; [lia|].
    symmetry. apply Z.ltb_lt. change (2 ^ 63) with (2 * 2 ^ 62). lia.
  - (* the fraction is cut off *)
    assert (Hce : c * 2 ^ (- e) <= Zpos m).
    { destruct Hcases as [[-> Hmq]|(-> & -> & Hm1')].
      + specialize (Hm1 (- (ex + (d - 53))) ltac:(lia) ltac:(lia)). lia.
      + specialize (Hm1 (- (ex + (d - 53) + 1) + 1) ltac:(lia) ltac:(lia)).
        rewrite pow2_split in Hm1 by lia. change (2 ^ 1) with 2 in Hm1.
        change (2 ^ 53) with (2 * 2 ^ 52) in Hm1'. lia. }
    pose proof (pow2_pos (- e) ltac:(lia)) as Hpe.
    assert (Hv : c <= Zpos m / 2 ^ (- e) < 2 ^ 53).
    { split.
      - apply Z.div_le_lower_bound; [lia|]. lia.
      - apply Z.div_lt_upper_bound; [lia|]. nia. }
    replace (Zpos m / 2 ^ (- e) <? 2 ^ 63) with true; [|].
    + change (2 ^ 63) with (2 ^ 10 * 2 ^ 53). lia.
    + symmetry. apply Z.ltb_lt. change (2 ^ 63) with (2 ^ 10 * 2 ^ 53). lia.
Qed.

(** *** The loop *)

Lemma lcg_range (key : Z) : 0 <= lcg key < 2 ^ 64.
Proof. unfold lcg, uint64. apply Z.mod_pos_bound. reflexivity. Qed.

Lemma jump_bounds (b key : Z) :
  0 <= b -> b + 1 < 2 ^ 31 -> 0 <= key < 2 ^ 64 ->
  b + 1 <= jump b key < 2 ^ 63.
Proof.
  intros Hb Hb31 Hkey. unfold jump.
  set (dv := Z.shiftr key 33 + 1).
  assert (Hdv : 1 <= dv <= 2 ^ 31).
  { subst dv. rewrite Z.shiftr_div_pow2 by lia.
    assert (0 <= key / 2 ^ 33 < 2 ^ 31); [|lia]. split.
    - apply Z.div_pos; lia.
    - apply Z.div_lt_upper_bound; [lia|]. change (2 ^ 33 * 2 ^ 31) with (2 ^ 64). lia. }
  destruct (float64_of_int_exact dv) as (my & ey & -> & Hmy & Hey & Hvy).
  { change (2 ^ 53) with (2 ^ 31 * 2 ^ 22). lia. }
  destruct (float64_of_int_exact (b + 1)) as (mb & eb & -> & Hmb & Heb & Hvb).
  { change (2 ^ 53) with (2 ^ 31 * 2 ^ 22). lia. }
  change (float64_of_int (2 ^ 31)) with (S754_finite false 4503599627370496 (-21)).
  destruct (div64_2_31 my ey dv Hdv Hmy Hey Hvy) as (mr & er & -> & Hmr & Her & Hvr).
  apply (mul64_trunc mb mr eb er (b + 1)); try assumption. lia.
Qed.

Lemma jumpLoop_result (fuel : nat) : forall key b j n,
  0 <= key < 2 ^ 64 -> 0 <= j -> n < 2 ^ 31 ->
  (Z.to_nat (n - j) < fuel)%nat ->
  exists r, jumpLoop fuel key b j n = Some r
            /\ (j < n -> j <= r < n) /\ (n <= j -> r = b).
Proof.
  induction fuel as [|fuel IH]; intros key b j n Hkey Hj Hn Hfuel; [lia|].
  cbn [jumpLoop]. destruct (Z.ltb_spec j n) as [Hlt|Hge].
  - pose proof (jump_bounds j (lcg key) Hj ltac:(lia) (lcg_range key)) as Hjump.
    destruct (IH (lcg key) j (jump j (lcg key)) n (lcg_range key)
                ltac:(lia) Hn ltac:(lia)) as (r & -> & Hr1 & Hr2).
    exists r. split; [reflexivity|]. split; [|lia]. intros _.
    destruct (Z.ltb_spec (jump j (lcg key)) n); [lia|].
    rewrite Hr2 by assumption. lia.
  - exists b. split; [reflexivity|]. split; [lia|reflexivity].
Qed.

Lemma jumpLoop_grow (fuel : nat) : forall fuel' key b j n r r',
  0 <= key < 2 ^ 64 -> 0 <= j -> n + 1 < 2 ^ 31 ->
  jumpLoop fuel key b j n = Some r ->
  jumpLoop fuel' key b j (n + 1) = Some r' ->
  r' = r \/ r' = n.
Proof.
  induction fuel as [|fuel IH]; intros fuel' key b j n r r' Hkey Hj Hn Hr Hr';
    [discriminate|].
  destruct fuel' as [|fuel']; [discriminate|].
  cbn [jumpLoop] in Hr, Hr'.
  destruct (Z.ltb_spec j n) as [Hlt|Hge].
  - destruct (Z.ltb_spec j (n + 1)); [|lia].
    pose proof (jump_bounds j (lcg key) Hj ltac:(lia) (lcg_range key)) as Hjump.
    eapply (IH fuel' (lcg key) j (jump j (lcg key)) n);
      [apply lcg_range | lia | exact Hn | exact Hr | exact Hr'].
  - injection Hr as <-.
    destruct (Z.ltb_spec j (n + 1)) as [Hlt'|Hge'].
    + assert (j = n) by lia. subst j.
      pose proof (jump_bounds n (lcg key) Hj ltac:(lia) (lcg_range key)) as Hjump.
      destruct fuel' as [|fuel']; [discriminate|]. cbn [jumpLoop] in Hr'.
      destruct (Z.ltb_spec (jump n (lcg key)) (n + 1)); [lia|].
      injection Hr' as <-. now right.
    + injection Hr' as <-. now left.
Qed.

Lemma jumpLoop_fuel (fuel : nat) : forall fuel' key b j n r r',
  jumpLoop fuel key b j n = Some r ->
  jumpLoop fuel' key b j n = Some r' ->
  r = r'.
Proof.
  induction fuel as [|fuel IH]; intros fuel' key b j n r r' Hr Hr';
    [discriminate|].
  destruct fuel' as [|fuel']; [discriminate|].
  cbn [jumpLoop] in Hr, Hr'. destruct (j <? n).
  - eapply IH; eassumption.
  - congruence.
Qed.

Lemma int32_small (z : Z) : - 2 ^ 31 <= z < 2 ^ 31 -> int32 z = z.
Proof.
  intros Hz. unfold int32. rewrite Z.mod_small; [lia|].
  change (2 ^ 32) with (2 * 2 ^ 31). lia.
Qed.

(** C6: for a 64-bit key and a server count [n] (at least 1, [n + 1]
    still an int32), the bucket function returns a bucket of [0, n) (the
    loop ends within its bound, and a larger bound gives the same bucket);
    and with [n + 1] servers the key's bucket is the same one or the new
    bucket [n]: no key moves between two of the old buckets. *)
Theorem C6_jumpHash_prefix_stable (key n : Z) :
  0 <= key < 2 ^ 64 -> 1 <= n -> n + 1 < 2 ^ 31 ->
  exists b b',
    jumpHash key n = Some b /\ 0 <= b < n
    /\ (forall fuel, (Z.to_nat n < fuel)%nat ->
          jumpLoop fuel key (-1) 0 n = Some b)
    /\ jumpHash key (n + 1) = Some b' /\ 0 <= b' < n + 1
    /\ (b' = b \/ b' = n).
Proof.
  intros Hkey Hn Hn31. unfold jumpHash.
  destruct (jumpLoop_result (Z.to_nat n + 1) key (-1) 0 n) as (b & Hb & Hb1 & _);
    try lia.
  destruct (jumpLoop_result (Z.to_nat (n + 1) + 1) key (-1) 0 (n + 1))
    as (b' & Hb' & Hb1' & _); try lia.
  specialize (Hb1 ltac:(lia)). specialize (Hb1' ltac:(lia)).
  pose proof (jumpLoop_grow _ _ key (-1) 0 n b b' Hkey ltac:(lia) Hn31 Hb Hb') as Hg.
  exists b, b'. rewrite Hb, Hb'. cbn [option_map].
  rewrite !int32_small by lia. repeat split; try lia.
  intros fuel Hfuel.
  destruct (jumpLoop_result fuel key (-1) 0 n) as (b2 & Hb2 & _); try lia.
  rewrite Hb2. f_equal. eapply jumpLoop_fuel; eassumption.
Qed.

Lemma C6_jumpHash_prefix_stable_witness :
  jumpHash 42 57 = Some 43 /\ jumpHash 42 58 = Some 43
  /\ exists b b',
       jumpHash 42 57 = Some b /\ 0 <= b < 57
       /\ (forall fuel, (Z.to_nat 57 < fuel)%nat ->
             jumpLoop fuel 42 (-1) 0 57 = Some b)
       /\ jumpHash 42 (57 + 1) = Some b' /\ 0 <= b' < 57 + 1
       /\ (b' = b \/ b' = 57).
Proof.
  split; [vm_compute; reflexivity|]. split; [vm_compute; reflexivity|].
  apply (C6_jumpHash_prefix_stable 42 57).
  - split; [discriminate|reflexivity].
  - discriminate.
  - reflexivity.
Defined.

End JumpHashFacts.

(** ** Facts about the rules configuration *)

Module ConfigsFacts.
Import Configs.

Lemma Equal_range_true (kvs : list (string * string)) (o : RulesConfig) :
  Equal_range kvs o = true <->
  forall k v, (k, v) ∈ kvs -> entries o !! k = Some v.
Proof.
  induction kvs as [|[k v1] rest IH]; simpl.
  - split; [|reflexivity]. intros _ k v Hin. inversion Hin.
  - unfold index. destruct (entries o !! k) as [v2|] eqn:Hk; simpl.
    + destruct (String.eqb_spec v1 v2) as [->|Hne]; simpl.
      * rewrite IH. split.
        -- intros H k' v' Hin. apply elem_of_cons in Hin as [[= -> ->]|Hin];
             [exact Hk|now apply H].
        -- intros H k' v' Hin. apply H. now right.
      * split; [discriminate|]. intros H.
        specialize (H k v1 (list_elem_of_here _ _)). congruence.
    + split; [discriminate|]. intros H.
      specialize (H k v1 (list_elem_of_here _ _)). congruence.
Qed.

(** The loop's verdict does not depend on the order of the iteration. *)
Lemma Equal_in_order (order : list (string * string)) (c o : RulesConfig) :
  order ≡ₚ map_to_list (entries c) -> Equal_in order c o = Equal c o.
Proof.
  intros Hp. unfold Equal, Equal_in. destruct (negb _); [reflexivity|].
  apply eq_true_iff_eq. rewrite !Equal_range_true.
  split; intros H k v Hin; apply H; [now rewrite Hp|now rewrite <- Hp].
Qed.

Lemma Equal_true (c o : RulesConfig) :
  Equal c o = true <-> entries c = entries o.
Proof.
  unfold Equal, Equal_in, len. split.
  - destruct (Nat.eqb_spec (size (entries o)) (size (entries c))) as [Hsz|];
      simpl; [|discriminate].
    rewrite Equal_range_true. intros H.
    apply map_subseteq_size_eq; [|lia].
    apply map_subseteq_spec. intros k v Hk. apply H.
    now apply elem_of_map_to_list.
  - intros Heq. rewrite Heq, Nat.eqb_refl. simpl.
    apply Equal_range_true. intros k v Hin.
    apply elem_of_map_to_list in Hin. exact Hin.
Qed.

(** C8: in whatever order the loop visits [c]'s entries, [c.Equal(o)] is
    true exactly when [c] and [o] hold the same filename-to-content pairs;
    hence [Equal] is reflexive and symmetric. *)
Theorem C8_Equal_decides_same_entries
    (c o : RulesConfig) (order : list (string * string)) :
  order ≡ₚ map_to_list (entries c) ->
  (Equal_in order c o = true <->
     forall fn content, entries c !! fn = Some content <->
                        entries o !! fn = Some content)
  /\ Equal c c = true
  /\ Equal c o = Equal o c.
Proof.
  intros Hp. rewrite (Equal_in_order _ _ _ Hp). split; [|split].
  - rewrite Equal_true. split.
    + intros -> fn content. reflexivity.
    + intros H. apply map_eq. intros k. apply option_eq. intros v. apply H.
  - now apply Equal_true.
  - apply eq_true_iff_eq. rewrite !Equal_true. split; congruence.
Qed.

Lemma C8_Equal_decides_same_entries_witness :
  Equal_in [("b.rules", "groups: []"); ("a.rules", "")]
           (Some (<["a.rules" := ""]> (<["b.rules" := "groups: []"]> ∅)))
           (Some (<["b.rules" := "groups: []"]> (<["a.rules" := ""]> ∅))) = true.
Proof.
  destruct (C8_Equal_decides_same_entries
              (Some (<["a.rules" := ""]> (<["b.rules" := "groups: []"]> ∅)))
              (Some (<["b.rules" := "groups: []"]> (<["a.rules" := ""]> ∅)))
              [("b.rules", "groups: []"); ("a.rules", "")])
    as [[_ Hsame] _].
  - vm_compute. apply perm_swap.
  - apply Hsame. intros fn content. unfold entries. simpl.
    rewrite (insert_insert_ne (M := gmap string)) by discriminate. reflexivity.
Defined.

(** C9: [GetVersionedRulesConfig] returns nil exactly when the view's
    [RulesFiles] is nil; otherwise the result carries the view's ID, its
    [RulesFiles] and its [DeletedAt] unchanged, and is deleted exactly when
    that [DeletedAt] is not the zero time. *)
Theorem C9_GetVersionedRulesConfig_copies (v : View) :
  (GetVersionedRulesConfig v = None <-> RulesFiles (View_Config v) = None)
  /\ forall vr, GetVersionedRulesConfig v = Some vr ->
       VRC_ID vr = View_ID v
       /\ VRC_Config vr = RulesFiles (View_Config v)
       /\ VRC_DeletedAt vr = View_DeletedAt v
       /\ (IsDeleted vr = true <-> Time_IsZero (View_DeletedAt v) = false).
Proof.
  unfold GetVersionedRulesConfig, IsDeleted.
  destruct (RulesFiles (View_Config v)) as [m|] eqn:Hr.
  - split; [split; discriminate|].
    intros vr [= <-]. cbn. repeat split; try assumption.
    + now intros ->%negb_true_iff.
    + now intros ->.
  - split; [tauto|]. discriminate.
Qed.

(** *** [Parse] *)

Section ParseFacts.
Context `{Prometheus}.

(** The contract of [rulefmt.Parse] that [Parse] relies on when it
    dereferences the groups: a nil pointer comes with an error. *)
Hypothesis nil_groups_have_errors :
  forall content, fst (rulefmt_Parse content) = None -> failsFormat content.

Definition key (rg : RuleGroup) (fn : string) : string :=
  Name rg +:+ ";" +:+ fn.

Lemma parseRules_cases (todo : list Rule) (rls : list rules_Rule) :
  (exists err rl, parseRules todo rls = inl err
                  /\ rl ∈ todo /\ promql_ParseExpr (Expr rl) = inl err)
  \/ (exists rls', parseRules todo rls = inr rls'
                   /\ forall rl err, rl ∈ todo ->
                        promql_ParseExpr (Expr rl) <> inl err).
Proof.
  revert rls. induction todo as [|rl todo IH]; intros rls; simpl.
  - right. exists rls. split; [reflexivity|]. intros rl err Hin. inversion Hin.
  - destruct (promql_ParseExpr (Expr rl)) as [err|expr] eqn:Hp.
    + left. exists err, rl. split; [reflexivity|]. split; [left|exact Hp].
    + set (acc := if negb (Alert rl =? "")%string
                  then (rls ++ [NewAlertingRule (Alert rl) expr (For rl)
                                  (labels_FromMap (Labels rl))
                                  (labels_FromMap (Annotations rl))])%list
                  else (rls ++ [NewRecordingRule (Record_ rl) expr
                                  (labels_FromMap (Labels rl))])%list).
      assert (Hacc : (if negb (Alert rl =? "")%string
                      then parseRules todo
                             (rls ++ [NewAlertingRule (Alert rl) expr (For rl)
                                        (labels_FromMap (Labels rl))
                                        (labels_FromMap (Annotations rl))])%list
                      else parseRules todo
                             (rls ++ [NewRecordingRule (Record_ rl) expr
                                        (labels_FromMap (Labels rl))])%list)
                     = parseRules todo acc).
      { subst acc. destruct (negb (Alert rl =? "")%string); reflexivity. }
      rewrite Hacc. destruct (IH acc) as [Hbad|Hok].
      * destruct Hbad as (err & rl' & -> & Hin & Hrl).
        left. exists err, rl'. split; [reflexivity|].
        split; [now right|exact Hrl].
      * destruct Hok as (rls' & -> & Hall). right. exists rls'.
        split; [reflexivity|]. intros rl' err Hin.
        apply elem_of_cons in Hin as [->|Hin]; [congruence|now apply Hall].
Qed.

Lemma parseGroups_cases (fn : string) (todo : list RuleGroup)
    (groups : gmap string (list rules_Rule)) :
  (exists err rg rl, parseGroups fn todo groups = inl err
                     /\ rg ∈ todo /\ rl ∈ Rules rg
                     /\ promql_ParseExpr (Expr rl) = inl err)
  \/ (exists groups', parseGroups fn todo groups = inr groups'
        /\ (forall rg rl err, rg ∈ todo -> rl ∈ Rules rg ->
              promql_ParseExpr (Expr rl) <> inl err)
        /\ (forall k, is_Some (groups !! k) -> is_Some (groups' !! k))
        /\ (forall rg, rg ∈ todo -> is_Some (groups' !! key rg fn))
        /\ (forall k rls, groups' !! k = Some rls ->
              groups !! k = Some rls
              \/ exists rg, rg ∈ todo /\ k = key rg fn
                            /\ parseRules (Rules rg) [] = inr rls)).
Proof.
  revert groups. induction todo as [|rg todo IH]; intros groups; simpl.
  - right. exists groups. split; [reflexivity|].
    split; [intros rg rl err Hin; inversion Hin|].
    split; [auto|]. split; [intros rg Hin; inversion Hin|]. auto.
  - destruct (parseRules_cases (Rules rg) []) as [Hbad|Hok].
    + destruct Hbad as (err & rl & -> & Hin & Hrl).
      left. exists err, rg, rl. split; [reflexivity|].
      split; [left|]. split; assumption.
    + destruct Hok as (rls0 & Hrls0 & Hall0). rewrite Hrls0.
      destruct (IH (<[Name rg +:+ ";" +:+ fn := rls0]> groups)) as [Hbad|Hok].
      * destruct Hbad as (err & rg' & rl & -> & Hin & Hrl & Hp).
        left. exists err, rg', rl. split; [reflexivity|].
        split; [now right|]. split; assumption.
      * destruct Hok as (groups' & -> & Hall & Hmono & Hkeys & Hvals).
        right. exists groups'. split; [reflexivity|].
        split; [|split; [|split]].
        -- intros rg' rl err Hin Hrl.
           apply elem_of_cons in Hin as [->|Hin]; [now apply Hall0|].
           now apply (Hall rg').
        -- intros k Hk. apply Hmono.
           destruct (decide (Name rg +:+ ";" +:+ fn = k)) as [<-|Hne].
           ++ rewrite lookup_insert_eq. eauto.
           ++ now rewrite lookup_insert_ne.
        -- intros rg' Hin. apply elem_of_cons in Hin as [->|Hin].
           ++ apply Hmono. unfold key. rewrite lookup_insert_eq. eauto.
           ++ now apply Hkeys.
        -- intros k rls Hk. destruct (Hvals k rls Hk) as [Hin|Hin].
           ++ destruct (decide (Name rg +:+ ";" +:+ fn = k)) as [<-|Hne].
              ** rewrite lookup_insert_eq in Hin. injection Hin as <-.
                 right. exists rg. split; [left|]. split; [reflexivity|exact Hrls0].
              ** rewrite lookup_insert_ne in Hin by exact Hne. now left.
           ++ destruct Hin as (rg' & Hin & -> & Hrls).
              right. exists rg'. split; [now right|]. split; [reflexivity|exact Hrls].
Qed.

Lemma parseFiles_cases (todo : list (string * string))
    (groups : gmap string (list rules_Rule)) :
  (exists err fn content,
      parseFiles todo groups = Returned (None, Some err)
      /\ (fn, content) ∈ todo
      /\ (failsFormat content \/ failsExpr content))
  \/ (exists m, parseFiles todo groups = Returned (Some m, None)
        /\ (forall fn content, (fn, content) ∈ todo ->
              ~ failsFormat content /\ ~ failsExpr content)
        /\ (forall fn content rgs rg, (fn, content) ∈ todo ->
              fst (rulefmt_Parse content) = Some rgs -> rg ∈ Groups rgs ->
              is_Some (m !! key rg fn))
        /\ (forall k, is_Some (groups !! k) -> is_Some (m !! k))
        /\ (forall k rls, m !! k = Some rls ->
              groups !! k = Some rls
              \/ exists fn content rgs rg,
                   (fn, content) ∈ todo
                   /\ fst (rulefmt_Parse content) = Some rgs
                   /\ rg ∈ Groups rgs /\ k = key rg fn
                   /\ parseRules (Rules rg) [] = inr rls)).
Proof.
  revert groups. induction todo as [|[fn content] todo IH]; intros groups; simpl.
  - right. exists groups. split; [reflexivity|].
    split; [intros fn content Hin; inversion Hin|].
    split; [intros fn content rgs rg Hin; inversion Hin|]. auto.
  - pose proof (nil_groups_have_errors content) as Hnil.
    unfold failsFormat in Hnil.
    destruct (rulefmt_Parse content) as [rgs errs] eqn:Hparse.
    destruct errs as [|e errs].
    + destruct rgs as [rgs|]; [|now exfalso; apply Hnil].
      destruct (parseGroups_cases fn (Groups rgs) groups) as [Hbad|Hok].
      * destruct Hbad as (err & rg & rl & -> & Hin & Hrl & Hp).
        left. exists err, fn, content. split; [reflexivity|].
        split; [left|]. right. exists rgs, rg, rl, err.
        rewrite Hparse. auto.
      * destruct Hok as (groups1 & -> & Hall1 & Hmono1 & Hkeys1 & Hvals1).
        destruct (IH groups1) as [Hbad|Hok].
        -- destruct Hbad as (err & fn' & content' & -> & Hin & Hfail).
           left. exists err, fn', content'. split; [reflexivity|].
           split; [now right|exact Hfail].
        -- destruct Hok as (m & -> & Hall & Hkeys & Hmono & Hvals).
           right. exists m. split; [reflexivity|].
           split; [|split; [|split]].
           ++ intros fn' content' Hin.
              apply elem_of_cons in Hin as [[= -> ->]|Hin]; [|now apply (Hall fn')].
              split.
              ** unfold failsFormat. rewrite Hparse. simpl. congruence.
              ** intros (rgs' & rg & rl & err & Hrgs & Hrg & Hrl & Hp).
                 rewrite Hparse in Hrgs. injection Hrgs as <-.
                 exact (Hall1 rg rl err Hrg Hrl Hp).
           ++ intros fn' content' rgs' rg Hin Hrgs Hrg.
              apply elem_of_cons in Hin as [[= -> ->]|Hin].
              ** rewrite Hparse in Hrgs. injection Hrgs as <-.
                 apply Hmono. now apply Hkeys1.
              ** now apply (Hkeys fn' content' rgs').
           ++ intros k Hk. now apply Hmono, Hmono1.
           ++ intros k rls Hk. destruct (Hvals k rls Hk) as [Hin|Hin].
              ** destruct (Hvals1 k rls Hin) as [Hin1|Hin1]; [now left|].
                 destruct Hin1 as (rg & Hrg & -> & Hrls).
                 right. exists fn, content, rgs, rg. rewrite Hparse.
                 split; [left|]. auto.
              ** destruct Hin as (fn' & content' & rgs' & rg & Hin & Hrest).
                 right. exists fn', content', rgs', rg. split; [now right|exact Hrest].
    + left. exists (Errorf_parsing fn e), fn, content. split; [reflexivity|].
      split; [left|]. left. unfold failsFormat. rewrite Hparse. discriminate.
Qed.

(** C10: in whatever order the loop visits the files, [Parse] returns an
    error exactly when some file fails rule-format parsing or some rule
    expression fails PromQL parsing; with an error the returned map is nil;
    without one, every group of every file has its entry under its name, a
    semicolon and the file's name, and every entry is the rules of such a
    group. *)
Theorem C10_Parse_error_iff_some_file_fails
    (c : RulesConfig) (order : list (string * string)) :
  order ≡ₚ map_to_list (entries c) ->
  exists groups err,
    Parse_in order = Returned (groups, err)
    /\ (err <> None <->
          exists fn content, entries c !! fn = Some content
                             /\ (failsFormat content \/ failsExpr content))
    /\ (err <> None -> groups = None)
    /\ (err = None ->
          exists m, groups = Some m
            /\ (forall fn content rgs rg,
                  entries c !! fn = Some content ->
                  fst (rulefmt_Parse content) = Some rgs -> rg ∈ Groups rgs ->
                  is_Some (m !! (Name rg +:+ ";" +:+ fn)))
            /\ (forall k rls, m !! k = Some rls ->
                  exists fn content rgs rg,
                    entries c !! fn = Some content
                    /\ fst (rulefmt_Parse content) = Some rgs
                    /\ rg ∈ Groups rgs
                    /\ k = Name rg +:+ ";" +:+ fn
                    /\ parseRules (Rules rg) [] = inr rls)).
Proof.
  intros Hp.
  assert (Hin : forall fn content,
             (fn, content) ∈ order <-> entries c !! fn = Some content).
  { intros fn content. rewrite Hp. apply elem_of_map_to_list. }
  unfold Parse_in. destruct (parseFiles_cases order ∅) as [Hbad|Hok].
  - destruct Hbad as (err & fn & content & -> & Hfn & Hfail).
    exists None, (Some err). split; [reflexivity|]. split; [|split].
    + split; [|discriminate]. intros _. exists fn, content.
      split; [now apply Hin|exact Hfail].
    + reflexivity.
    + discriminate.
  - destruct Hok as (m & -> & Hall & Hkeys & _ & Hvals).
    exists (Some m), None. split; [reflexivity|]. split; [|split].
    + split; [congruence|]. intros (fn & content & Hfn & Hfail).
      apply Hin in Hfn. destruct (Hall fn content Hfn) as [H1 H2]. tauto.
    + congruence.
    + intros _. exists m. split; [reflexivity|]. split.
      * intros fn content rgs rg Hfn. apply Hin in Hfn.
        now apply (Hkeys fn content rgs rg).
      * intros k rls Hk. destruct (Hvals k rls Hk) as [Hempty|Hsome].
        -- now rewrite lookup_empty in Hempty.
        -- destruct Hsome as (fn & content & rgs & rg & Hfn & Hrest).
           exists fn, content, rgs, rg. split; [now apply Hin|exact Hrest].
Qed.

End ParseFacts.

(** A small stand-in for the Prometheus packages, to run [Parse] on: a
    file is one group named "g" holding one recording rule whose
    expression is the file's content; the empty file is malformed, and "("
    is no expression. *)
Definition toyPrometheus : Prometheus :=
  {| promql_Expr := string;
     labels_Labels := list (string * string);
     rulefmt_Parse := fun content =>
       if String.eqb content "" then (None, ["yaml: EOF"])
       else (Some {| Groups :=
                       [{| Name := "g"; Interval := 0;
                           Rules := [{| Record_ := "r"; Alert := "";
                                        Expr := content; For := 0;
                                        Labels := ∅; Annotations := ∅ |}] |}] |},
             []);
     promql_ParseExpr := fun input =>
       if String.eqb input "(" then inl "parse error: unclosed left parenthesis"
       else inr input;
     labels_FromMap := map_to_list |}.

Lemma C10_Parse_error_iff_some_file_fails_witness :
  @Parse_in toyPrometheus [("a.rules", "(")]
  = Returned (None, Some "parse error: unclosed left parenthesis")
  /\ exists groups err,
       @Parse_in toyPrometheus [("a.rules", "up")] = Returned (groups, err)
       /\ (err <> None -> groups = None).
Proof.
  split; [vm_compute; reflexivity|].
  destruct (@C10_Parse_error_iff_some_file_fails toyPrometheus) with
    (c := Some (<["a.rules" := "up"]> ∅ : gmap string string))
    (order := [("a.rules", "up")])
    as (groups & err & Hrun & _ & Hnil & _).
  - intros content. unfold failsFormat. simpl.
    destruct (String.eqb content ""); simpl; discriminate.
  - vm_compute. reflexivity.
  - exists groups, err. split; [exact Hrun|exact Hnil].
Defined.

End ConfigsFacts.
(** ** More about the rules configuration *)

Module ConfigsExtras.
Import Configs ConfigsFacts.

(** [Equal] is transitive, whatever the order of the two iterations. *)
Theorem Equal_transitive
    (a b c : RulesConfig) (order_a order_b : list (string * string)) :
  order_a ≡ₚ map_to_list (entries a) ->
  order_b ≡ₚ map_to_list (entries b) ->
  Equal_in order_a a b = true ->
  Equal_in order_b b c = true ->
  Equal_in order_a a c = true.
Proof.
  intros Ha Hb. rewrite !(Equal_in_order _ _ _ Ha), (Equal_in_order _ _ _ Hb).
  rewrite !Equal_true. congruence.
Qed.

Lemma Equal_transitive_witness :
  Equal_in [("a.rules", "")] (Some (<["a.rules" := ""]> ∅))
           (Some (<["a.rules" := ""]> (<["a.rules" := "old"]> ∅))) = true.
Proof.
  apply (Equal_transitive
           (Some (<["a.rules" := ""]> ∅))
           (Some (<["a.rules" := ""]> ∅))
           (Some (<["a.rules" := ""]> (<["a.rules" := "old"]> ∅)))
           [("a.rules", "")] [("a.rules", "")]).
  - vm_compute. reflexivity.
  - vm_compute. reflexivity.
  - vm_compute. reflexivity.
  - vm_compute. reflexivity.
Defined.

(** [Equal] does not tell a nil [RulesConfig] from an empty one, while
    [GetVersionedRulesConfig] does: of two views whose rules files are
    [Equal], one can have a versioned rules config and the other none. *)
Theorem Equal_cannot_tell_nil_from_empty (v1 v2 : View) :
  RulesFiles (View_Config v1) = None ->
  len (RulesFiles (View_Config v2)) = 0 ->
  Equal (RulesFiles (View_Config v1)) (RulesFiles (View_Config v2)) = true
  /\ Equal (RulesFiles (View_Config v2)) (RulesFiles (View_Config v1)) = true
  /\ GetVersionedRulesConfig v1 = None
  /\ (RulesFiles (View_Config v2) <> None -> GetVersionedRulesConfig v2 <> None).
Proof.
  intros H1 H2. unfold len in H2. apply map_size_empty_iff in H2.
  split; [|split; [|split]].
  - apply Equal_true. rewrite H1, H2. reflexivity.
  - apply Equal_true. rewrite H1, H2. reflexivity.
  - unfold GetVersionedRulesConfig. now rewrite H1.
  - unfold GetVersionedRulesConfig.
    destruct (RulesFiles (View_Config v2)); [discriminate|congruence].
Qed.

Definition nilView : View :=
  {| View_ID := 1%Z;
     View_Config := {| RulesFiles := None; AlertmanagerConfig := "" |};
     View_DeletedAt := {| sec := 0%Z; nsec := 0%Z |} |}.

Definition emptyView : View :=
  {| View_ID := 2%Z;
     View_Config := {| RulesFiles := Some ∅; AlertmanagerConfig := "" |};
     View_DeletedAt := {| sec := 0%Z; nsec := 0%Z |} |}.

Lemma Equal_cannot_tell_nil_from_empty_witness :
  Equal (RulesFiles (View_Config nilView)) (RulesFiles (View_Config emptyView)) = true
  /\ GetVersionedRulesConfig nilView = None
  /\ GetVersionedRulesConfig emptyView <> None.
Proof.
  destruct (Equal_cannot_tell_nil_from_empty nilView emptyView eq_refl eq_refl)
    as (H1 & _ & H3 & H4).
  split; [exact H1|]. split; [exact H3|]. apply H4. discriminate.
Defined.

(** *** [Parse] *)

Section ParseExtras.
Context `{Prometheus}.

(** A file passes: it has groups and no format error, and every
    expression of its rules parses. *)
Definition passes (content : string) : Prop :=
  exists rgs,
    rulefmt_Parse content = (Some rgs, [])
    /\ forall rg rl err, rg ∈ Groups rgs -> rl ∈ Rules rg ->
         promql_ParseExpr (Expr rl) <> inl err.

(** The rule [Parse] makes of a rule of the file whose expression parsed
    to [expr]. *)
Definition converted (rl : Rule) (expr : promql_Expr) : rules_Rule :=
  if negb (String.eqb (Alert rl) "") then
    NewAlertingRule (Alert rl) expr (For rl)
      (labels_FromMap (Labels rl)) (labels_FromMap (Annotations rl))
  else
    NewRecordingRule (Record_ rl) expr (labels_FromMap (Labels rl)).

Lemma parseRules_step (rl : Rule) (todo : list Rule) (rls : list rules_Rule) :
  parseRules (rl :: todo) rls
  = match promql_ParseExpr (Expr rl) with
    | inl err => inl err
    | inr expr => parseRules todo (rls ++ [converted rl expr])
    end.
Proof.
  cbn [parseRules]. unfold converted.
  destruct (promql_ParseExpr (Expr rl)); [reflexivity|].
  destruct (negb (Alert rl =? "")%string); reflexivity.
Qed.

Lemma parseRules_shape (todo : list Rule) : forall acc rls,
  parseRules todo acc = inr rls ->
  exists outs,
    rls = (acc ++ outs)%list
    /\ Forall2 (fun rl out => exists expr,
                   promql_ParseExpr (Expr rl) = inr expr
                   /\ out = converted rl expr) todo outs.
Proof.
  induction todo as [|rl todo IH]; intros acc rls Hrun.
  - cbn in Hrun. injection Hrun as <-. exists []. rewrite app_nil_r.
    split; [reflexivity|constructor].
  - rewrite parseRules_step in Hrun.
    destruct (promql_ParseExpr (Expr rl)) as [err|expr] eqn:Hp; [discriminate|].
    destruct (IH _ _ Hrun) as (outs & -> & Hall).
    exists (converted rl expr :: outs). rewrite <- app_assoc.
    split; [reflexivity|]. constructor; [|exact Hall]. eauto.
Qed.

Lemma parseRules_first_error (pre post : list Rule) (rl : Rule) err :
  forall acc,
  (forall r e, r ∈ pre -> promql_ParseExpr (Expr r) <> inl e) ->
  promql_ParseExpr (Expr rl) = inl err ->
  parseRules (pre ++ rl :: post) acc = inl err.
Proof.
  induction pre as [|r pre IH]; intros acc Hpre Hrl; cbn [app].
  - rewrite parseRules_step, Hrl. reflexivity.
  - rewrite parseRules_step.
    destruct (promql_ParseExpr (Expr r)) as [e|expr] eqn:Hp.
    + exfalso. apply (Hpre r e); [left|exact Hp].
    + apply IH; [|exact Hrl]. intros r' e' Hin. apply Hpre. now right.
Qed.

Lemma parseGroups_passes (fn : string) (todo : list RuleGroup) :
  forall groups,
  (forall rg rl err, rg ∈ todo -> rl ∈ Rules rg ->
     promql_ParseExpr (Expr rl) <> inl err) ->
  exists groups', parseGroups fn todo groups = inr groups'.
Proof.
  intros groups Hall.
  destruct (parseGroups_cases fn todo groups) as [Hbad|Hok].
  - destruct Hbad as (err & rg & rl & _ & Hrg & Hrl & Hp).
    exfalso. exact (Hall rg rl err Hrg Hrl Hp).
  - destruct Hok as (groups' & Hrun & _). eauto.
Qed.

Lemma parseGroups_first_error (fn : string) (pre post : list RuleGroup)
    (rg : RuleGroup) err :
  forall groups,
  (forall g rl e, g ∈ pre -> rl ∈ Rules g ->
     promql_ParseExpr (Expr rl) <> inl e) ->
  parseRules (Rules rg) [] = inl err ->
  parseGroups fn (pre ++ rg :: post) groups = inl err.
Proof.
  induction pre as [|g pre IH]; intros groups Hpre Hrg; cbn [app parseGroups].
  - now rewrite Hrg.
  - destruct (parseRules_cases (Rules g) []) as [Hbad|Hok].
    + destruct Hbad as (e & rl & _ & Hin & Hp).
      exfalso. apply (Hpre g rl e); [left|exact Hin|exact Hp].
    + destruct Hok as (rls & -> & _). apply IH; [|exact Hrg].
      intros g' rl e Hin. apply Hpre. now right.
Qed.

(** Files that pass are gone through; the loop goes on after them. *)
Lemma parseFiles_passes (good : list (string * string)) :
  forall rest groups,
  (forall fn content, (fn, content) ∈ good -> passes content) ->
  exists groups', parseFiles (good ++ rest) groups = parseFiles rest groups'.
Proof.
  induction good as [|[fn content] good IH]; intros rest groups Hgood.
  - exists groups. reflexivity.
  - cbn [app parseFiles].
    destruct (Hgood fn content (list_elem_of_here _ _)) as (rgs & Hparse & Hall).
    rewrite Hparse.
    destruct (parseGroups_passes fn (Groups rgs) groups Hall) as (groups1 & ->).
    apply IH. intros fn' content' Hin. apply (Hgood fn'). now right.
Qed.

(** The empty configuration, nil or not, parses to an empty map that is
    not nil, with no error. *)
Theorem Parse_of_no_files (c : RulesConfig) (order : list (string * string)) :
  order ≡ₚ map_to_list (entries c) ->
  len c = 0 ->
  Parse_in order = Returned (Some ∅, None).
Proof.
  intros Hp Hlen. unfold len in Hlen. apply map_size_empty_iff in Hlen.
  rewrite Hlen, map_to_list_empty in Hp. apply Permutation_nil_r in Hp.
  subst order. reflexivity.
Qed.

(** [Parse] stops at the first file it visits that fails rule-format
    parsing: the error is the first of that file's errors, prefixed with
    the file's name; the other errors of the file, and the files not yet
    visited, play no part. *)
Theorem Parse_wraps_first_format_error
    (good rest : list (string * string)) (fn content : string)
    (rgs : option RuleGroups) (e : error) (es : list error) :
  (forall f ct, (f, ct) ∈ good -> passes ct) ->
  rulefmt_Parse content = (rgs, e :: es) ->
  Parse_in (good ++ (fn, content) :: rest)
  = Returned (None, Some ("error parsing " +:+ fn +:+ ": " +:+ e)).
Proof.
  intros Hgood Hparse. unfold Parse_in.
  destruct (parseFiles_passes good ((fn, content) :: rest) ∅ Hgood)
    as (groups' & ->).
  cbn [parseFiles]. rewrite Hparse. reflexivity.
Qed.

(** A rule expression that fails PromQL parsing: [Parse] returns the
    parser's error as it is, without the file's name, for the first such
    rule in the order of the file's groups and rules. *)
Theorem Parse_returns_first_expr_error
    (good rest : list (string * string)) (fn content : string)
    (rgs : RuleGroups) (gpre gpost : list RuleGroup) (rg : RuleGroup)
    (rpre rpost : list Rule) (rl : Rule) (err : error) :
  (forall f ct, (f, ct) ∈ good -> passes ct) ->
  rulefmt_Parse content = (Some rgs, []) ->
  Groups rgs = (gpre ++ rg :: gpost)%list ->
  Rules rg = (rpre ++ rl :: rpost)%list ->
  (forall g r e, g ∈ gpre -> r ∈ Rules g -> promql_ParseExpr (Expr r) <> inl e) ->
  (forall r e, r ∈ rpre -> promql_ParseExpr (Expr r) <> inl e) ->
  promql_ParseExpr (Expr rl) = inl err ->
  Parse_in (good ++ (fn, content) :: rest) = Returned (None, Some err).
Proof.
  intros Hgood Hparse Hgroups Hrules Hgpre Hrpre Hrl. unfold Parse_in.
  destruct (parseFiles_passes good ((fn, content) :: rest) ∅ Hgood)
    as (groups' & ->).
  cbn [parseFiles]. rewrite Hparse, Hgroups.
  rewrite (parseGroups_first_error fn gpre gpost rg err); [reflexivity|exact Hgpre|].
  rewrite Hrules. now apply parseRules_first_error.
Qed.

(** Every entry of a successful [Parse] lists the rules of one group of
    one file, in the file's order: an alerting rule where the rule names an
    alert, a recording rule where it does not. *)
Theorem Parse_entries_follow_the_rules
    (c : RulesConfig) (order : list (string * string))
    (m : gmap string (list rules_Rule)) (k : string) (rls : list rules_Rule) :
  (forall content, fst (rulefmt_Parse content) = None -> failsFormat content) ->
  order ≡ₚ map_to_list (entries c) ->
  Parse_in order = Returned (Some m, None) ->
  m !! k = Some rls ->
  exists fn content rgs rg,
    entries c !! fn = Some content
    /\ fst (rulefmt_Parse content) = Some rgs
    /\ rg ∈ Groups rgs
    /\ k = Name rg +:+ ";" +:+ fn
    /\ Forall2 (fun rl out => exists expr,
                   promql_ParseExpr (Expr rl) = inr expr
                   /\ out = converted rl expr) (Rules rg) rls.
Proof.
  intros Hcontract Hp Hrun Hk. unfold Parse_in in Hrun.
  destruct (parseFiles_cases Hcontract order ∅) as [Hbad|Hok].
  - destruct Hbad as (err & fn & content & Hrun' & _). congruence.
  - destruct Hok as (m' & Hrun' & _ & _ & _ & Hvals).
    rewrite Hrun in Hrun'. injection Hrun' as <-.
    destruct (Hvals k rls Hk) as [Hempty|Hsome].
    + now rewrite lookup_empty in Hempty.
    + destruct Hsome as (fn & content & rgs & rg & Hfn & Hrgs & Hrg & Hkey & Hrls).
      exists fn, content, rgs, rg.
      split; [rewrite Hp in Hfn; now apply elem_of_map_to_list in Hfn|].
      split; [exact Hrgs|]. split; [exact Hrg|]. split; [exact Hkey|].
      destruct (parseRules_shape _ _ _ Hrls) as (outs & -> & Hall). exact Hall.
Qed.

(** *** Groups of the same name in one file *)

Lemma string_length_app (a b : string) :
  String.length (a +:+ b) = String.length a + String.length b.
Proof. induction a as [|x a IH]; simpl; [reflexivity|now rewrite IH]. Qed.

Lemma string_app_assoc (a b c : string) : (a +:+ b) +:+ c = a +:+ b +:+ c.
Proof.
  induction a as [|x a IH]; [reflexivity|].
  change (String x ((a +:+ b) +:+ c) = String x (a +:+ b +:+ c)).
  now rewrite IH.
Qed.

Lemma string_app_inv_tail (a b t : string) : a +:+ t = b +:+ t -> a = b.
Proof.
  revert b. induction a as [|x a IH]; intros [|y b] Heq.
  - reflexivity.
  - apply (f_equal String.length) in Heq.
    rewrite !string_length_app in Heq. cbn [String.length] in Heq. lia.
  - apply (f_equal String.length) in Heq.
    rewrite !string_length_app in Heq. cbn [String.length] in Heq. lia.
  - cbn [String.append] in Heq. injection Heq as -> Heq. f_equal. now apply IH.
Qed.

Lemma parseGroups_app (fn : string) (a b : list RuleGroup) : forall groups,
  parseGroups fn (a ++ b) groups
  = match parseGroups fn a groups with
    | inl err => inl err
    | inr groups1 => parseGroups fn b groups1
    end.
Proof.
  induction a as [|g a IH]; intros groups; cbn [app parseGroups]; [reflexivity|].
  destruct (parseRules (Rules g) []); [reflexivity|apply IH].
Qed.

Lemma parseGroups_other_names (fn : string) (todo : list RuleGroup)
    (name : string) : forall groups groups',
  parseGroups fn todo groups = inr groups' ->
  (forall g, g ∈ todo -> Name g <> name) ->
  groups' !! (name +:+ ";" +:+ fn) = groups !! (name +:+ ";" +:+ fn).
Proof.
  induction todo as [|g todo IH]; intros groups groups' Hrun Hne;
    cbn [parseGroups] in Hrun.
  - now injection Hrun as <-.
  - destruct (parseRules (Rules g) []) as [err|rls]; [discriminate|].
    rewrite (IH _ _ Hrun) by (intros g' Hin; apply Hne; now right).
    apply lookup_insert_ne. intros Heq.
    apply (Hne g (list_elem_of_here _ _)).
    apply (string_app_inv_tail _ _ (";" +:+ fn)). exact Heq.
Qed.

(** When a file names several groups alike, the entry under that name is
    the last of them: the earlier ones are overwritten. *)
Theorem Parse_last_group_of_a_name_wins
    (fn content : string) (rgs : RuleGroups)
    (pre post : list RuleGroup) (rg : RuleGroup) (rls : list rules_Rule) :
  rulefmt_Parse content = (Some rgs, []) ->
  Groups rgs = (pre ++ rg :: post)%list ->
  (forall g, g ∈ post -> Name g <> Name rg) ->
  (forall g rl e, g ∈ Groups rgs -> rl ∈ Rules g ->
     promql_ParseExpr (Expr rl) <> inl e) ->
  parseRules (Rules rg) [] = inr rls ->
  exists m,
    Parse_in [(fn, content)] = Returned (Some m, None)
    /\ m !! (Name rg +:+ ";" +:+ fn) = Some rls.
Proof.
  intros Hparse Hgroups Hpost Hall Hrls.
  unfold Parse_in. cbn [parseFiles]. rewrite Hparse.
  destruct (parseGroups_passes fn (Groups rgs) ∅ Hall) as (m & Hrun).
  rewrite Hrun. exists m. split; [reflexivity|].
  rewrite Hgroups, parseGroups_app in Hrun.
  destruct (parseGroups fn pre ∅) as [err|g1]; [discriminate|].
  cbn [parseGroups] in Hrun. rewrite Hrls in Hrun.
  rewrite (parseGroups_other_names fn post (Name rg) _ _ Hrun Hpost).
  apply lookup_insert_eq.
Qed.

(** *** The order of iteration *)

(** The entries one file contributes. *)
Definition groupsOf (fn content : string) : gmap string (list rules_Rule) :=
  match rulefmt_Parse content with
  | (Some rgs, _) =>
      match parseGroups fn (Groups rgs) ∅ with
      | inr m => m
      | inl _ => ∅
      end
  | (None, _) => ∅
  end.

(** A file goes through: no format error, groups, and rules that all
    convert. *)
Definition goesThrough (file : string * string) : Prop :=
  exists rgs m,
    rulefmt_Parse file.2 = (Some rgs, [])
    /\ parseGroups file.1 (Groups rgs) ∅ = inr m.

(** What [Parse] has after the files of [order], from [acc]: a later
    file's entries override the earlier ones. *)
Definition merged (order : list (string * string))
    (acc : gmap string (list rules_Rule)) : gmap string (list rules_Rule) :=
  fold_left (fun a file => groupsOf file.1 file.2 ∪ a) order acc.

Lemma parseGroups_union (fn : string) (todo : list RuleGroup) :
  forall acc m,
  parseGroups fn todo acc = inr m ->
  exists m0,
    (forall acc', parseGroups fn todo acc' = inr (m0 ∪ acc'))
    /\ forall k, is_Some (m0 !! k) -> exists name, k = name +:+ ";" +:+ fn.
Proof.
  induction todo as [|g todo IH]; intros acc m Hrun; cbn [parseGroups] in *.
  - exists ∅. split.
    + intros acc'. now rewrite (left_id_L ∅ (∪)).
    + intros k [x Hx]. now rewrite lookup_empty in Hx.
  - destruct (parseRules (Rules g) []) as [err|rls]; [discriminate|].
    destruct (IH _ _ Hrun) as (m0 & Hall & Hkeys).
    exists (m0 ∪ {[Name g +:+ ";" +:+ fn := rls]}). split.
    + intros acc'. rewrite Hall. f_equal.
      rewrite insert_union_singleton_l. apply (assoc_L (∪)).
    + intros k Hk. apply lookup_union_is_Some in Hk as [Hk|Hk]; [now apply Hkeys|].
      destruct Hk as [x Hx]. apply lookup_singleton_Some in Hx as [<- _]. eauto.
Qed.

Lemma goesThrough_step (fn content : string) :
  goesThrough (fn, content) ->
  exists rgs,
    rulefmt_Parse content = (Some rgs, [])
    /\ forall acc,
         parseGroups fn (Groups rgs) acc = inr (groupsOf fn content ∪ acc).
Proof.
  intros (rgs & m & Hparse & Hrun). cbn [fst snd] in *.
  exists rgs. split; [exact Hparse|]. intros acc.
  destruct (parseGroups_union _ _ _ _ Hrun) as (m0 & Hall & _).
  unfold groupsOf. rewrite Hparse, (Hall ∅), (right_id_L ∅ (∪)). apply Hall.
Qed.

Lemma groupsOf_keys (fn content k : string) :
  is_Some (groupsOf fn content !! k) -> exists name, k = name +:+ ";" +:+ fn.
Proof.
  unfold groupsOf. destruct (rulefmt_Parse content) as [[rgs|] errs].
  - destruct (parseGroups fn (Groups rgs) ∅) as [err|m] eqn:Hrun.
    + intros [x Hx]. now rewrite lookup_empty in Hx.
    + destruct (parseGroups_union _ _ _ _ Hrun) as (m0 & Hall & Hkeys).
      rewrite (Hall ∅), (right_id_L ∅ (∪)) in Hrun. injection Hrun as <-.
      apply Hkeys.
  - intros [x Hx]. now rewrite lookup_empty in Hx.
Qed.

Lemma parseFiles_merged (order : list (string * string)) : forall acc,
  Forall goesThrough order ->
  parseFiles order acc = Returned (Some (merged order acc), None).
Proof.
  induction order as [|[fn content] order IH]; intros acc Hall;
    cbn [parseFiles merged fold_left fst snd]; [reflexivity|].
  apply Forall_cons in Hall as [Hfile Hall].
  destruct (goesThrough_step fn content Hfile) as (rgs & -> & ->).
  now apply IH.
Qed.

Lemma parseFiles_goesThrough (order : list (string * string)) : forall acc m,
  parseFiles order acc = Returned (Some m, None) ->
  Forall goesThrough order.
Proof.
  induction order as [|[fn content] order IH]; intros acc m Hrun;
    [constructor|].
  cbn [parseFiles] in Hrun.
  destruct (rulefmt_Parse content) as [rgs errs] eqn:Hparse.
  destruct errs as [|e errs]; [|discriminate].
  destruct rgs as [rgs|]; [|discriminate].
  destruct (parseGroups fn (Groups rgs) acc) as [err|acc'] eqn:Hgroups;
    [discriminate|].
  constructor; [|now apply (IH acc' m)].
  destruct (parseGroups_union _ _ _ _ Hgroups) as (m0 & Hall & _).
  exists rgs, (m0 ∪ ∅). split; [exact Hparse|apply Hall].
Qed.

Lemma CountByte_app (a b : string) (sep : ascii) :
  GoStrings.CountByte (a +:+ b) sep
  = GoStrings.CountByte a sep + GoStrings.CountByte b sep.
Proof.
  induction a as [|x a IH]; [reflexivity|].
  change (String x a +:+ b) with (String x (a +:+ b)).
  cbn [GoStrings.CountByte]. rewrite IH. lia.
Qed.

Lemma ContainsByte_sep (a b : string) (sep : ascii) :
  GoStrings.ContainsByte (a +:+ String sep b) sep = true.
Proof.
  unfold GoStrings.ContainsByte. rewrite CountByte_app.
  cbn [GoStrings.CountByte]. rewrite Ascii.eqb_refl.
  apply negb_true_iff, Nat.eqb_neq. lia.
Qed.

(** A key names its file, when file names hold no [;]. *)
Lemma key_names_file : forall name1 name2 fn1 fn2 : string,
  name1 +:+ ";" +:+ fn1 = name2 +:+ ";" +:+ fn2 ->
  GoStrings.ContainsByte fn1 ";" = false ->
  GoStrings.ContainsByte fn2 ";" = false ->
  fn1 = fn2.
Proof.
  induction name1 as [|x name1 IH]; intros [|y name2] fn1 fn2 Heq H1 H2.
  - now injection Heq.
  - change (String ";" fn1 = String y (name2 +:+ String ";" fn2)) in Heq.
    injection Heq as _ ->. now rewrite ContainsByte_sep in H1.
  - change (String x (name1 +:+ String ";" fn1) = String ";" fn2) in Heq.
    injection Heq as _ <-. now rewrite ContainsByte_sep in H2.
  - change (String x (name1 +:+ ";" +:+ fn1) = String y (name2 +:+ ";" +:+ fn2))
      in Heq.
    injection Heq as _ Heq. now apply (IH name2).
Qed.

Lemma groupsOf_disjoint (fn1 content1 fn2 content2 : string) :
  fn1 <> fn2 ->
  GoStrings.ContainsByte fn1 ";" = false ->
  GoStrings.ContainsByte fn2 ";" = false ->
  groupsOf fn1 content1 ##ₘ groupsOf fn2 content2.
Proof.
  intros Hne H1 H2. apply map_disjoint_spec. intros k x y Hx Hy.
  destruct (groupsOf_keys fn1 content1 k) as [name1 Hk1]; [eauto|].
  destruct (groupsOf_keys fn2 content2 k) as [name2 Hk2]; [eauto|].
  rewrite Hk1 in Hk2.
  apply Hne. now apply (key_names_file name1 name2).
Qed.

Lemma merged_permutation (order1 order2 : list (string * string)) :
  order1 ≡ₚ order2 ->
  NoDup order1.*1 ->
  (forall file, file ∈ order1 -> GoStrings.ContainsByte file.1 ";" = false) ->
  forall acc, merged order1 acc = merged order2 acc.
Proof.
  induction 1 as [|file l1 l2 Hp IH|file1 file2 l|l1 l2 l3 Hp1 IH1 Hp2 IH2];
    intros Hnd Hnames acc.
  - reflexivity.
  - cbn [merged fold_left]. apply IH.
    + cbn [fmap list_fmap] in Hnd. now apply NoDup_cons in Hnd as [_ Hnd].
    + intros f Hf. apply Hnames. now right.
  - cbn [merged fold_left]. f_equal.
    rewrite !(assoc_L (∪)). f_equal. apply map_union_comm.
    cbn [fmap list_fmap] in Hnd. apply NoDup_cons in Hnd as [Hne _].
    apply groupsOf_disjoint.
    + intros Heq. apply Hne. rewrite Heq. left.
    + apply Hnames. right. left.
    + apply Hnames. left.
  - rewrite IH1 by assumption. apply IH2.
    + now rewrite <- Hp1.
    + intros f Hf. apply Hnames. now rewrite Hp1.
Qed.

(** Two configurations that are [Equal] parse to the same groups, in
    whatever order either is iterated, when no file name holds the [;]
    that separates a group's name from its file's in the keys. *)
Theorem Equal_configs_parse_alike
    (c o : RulesConfig) (order_c order_o : list (string * string))
    (m : gmap string (list rules_Rule)) :
  order_c ≡ₚ map_to_list (entries c) ->
  order_o ≡ₚ map_to_list (entries o) ->
  (forall fn content, entries c !! fn = Some content ->
     GoStrings.ContainsByte fn ";" = false) ->
  Equal c o = true ->
  Parse_in order_c = Returned (Some m, None) ->
  Parse_in order_o = Returned (Some m, None).
Proof.
  intros Hc Ho Hnames Heq Hrun. apply Equal_true in Heq.
  assert (Hperm : order_c ≡ₚ order_o) by now rewrite Hc, Ho, Heq.
  unfold Parse_in in *.
  pose proof (parseFiles_goesThrough _ _ _ Hrun) as Hall.
  rewrite (parseFiles_merged order_c ∅ Hall) in Hrun. injection Hrun as <-.
  rewrite parseFiles_merged by now rewrite <- Hperm.
  do 3 f_equal. symmetry. apply merged_permutation; [exact Hperm| |].
  - rewrite Hc. apply NoDup_fst_map_to_list.
  - intros [fn content] Hin. apply (Hnames fn content).
    apply elem_of_map_to_list. now rewrite <- Hc.
Qed.

(** The keys do not tell a [;] of a group's name from one of a file's:
    the group [name;a] of file [b] and the group [name] of file [a;b]
    share one entry, which holds the rules of whichever file the iteration
    visits last. *)
Theorem Parse_files_can_collide
    (name a b content1 content2 : string) (rg1 rg2 : RuleGroup)
    (rls1 rls2 : list rules_Rule) :
  rulefmt_Parse content1 = (Some {| Groups := [rg1] |}, []) ->
  rulefmt_Parse content2 = (Some {| Groups := [rg2] |}, []) ->
  Name rg1 = name +:+ ";" +:+ a ->
  Name rg2 = name ->
  parseRules (Rules rg1) [] = inr rls1 ->
  parseRules (Rules rg2) [] = inr rls2 ->
  Parse_in [(b, content1); (a +:+ ";" +:+ b, content2)]
  = Returned (Some {[name +:+ ";" +:+ a +:+ ";" +:+ b := rls2]}, None)
  /\ Parse_in [(a +:+ ";" +:+ b, content2); (b, content1)]
     = Returned (Some {[name +:+ ";" +:+ a +:+ ";" +:+ b := rls1]}, None).
Proof.
  intros Hp1 Hp2 Hn1 Hn2 Hr1 Hr2.
  assert (Hkey : (name +:+ ";" +:+ a) +:+ ";" +:+ b
                 = name +:+ ";" +:+ a +:+ ";" +:+ b).
  { now rewrite !string_app_assoc. }
  unfold Parse_in. cbn [parseFiles parseGroups].
  rewrite Hp1, Hp2. cbn [parseGroups Groups]. rewrite Hr1, Hr2, Hn1, Hn2, Hkey.
  split; do 3 f_equal; rewrite insert_insert_eq; apply insert_empty.
Qed.

End ParseExtras.


(** *** Runs on the stand-in parsers *)

Definition toyRule (content : string) : Rule :=
  {| Record_ := "r"; Alert := ""; Expr := content; For := 0;
     Labels := ∅; Annotations := ∅ |}.

Definition toyGroup (content : string) : RuleGroup :=
  {| Name := "g"; Interval := 0; Rules := [toyRule content] |}.

Lemma toy_passes content :
  content <> "" -> content <> "(" -> @passes toyPrometheus content.
Proof.
  intros H1 H2. unfold passes. simpl.
  destruct (String.eqb_spec content "") as [->|_]; [contradiction|].
  eexists. split; [reflexivity|]. simpl.
  intros rg rl err Hrg Hrl.
  apply list_elem_of_singleton in Hrg. subst rg. simpl in Hrl.
  apply list_elem_of_singleton in Hrl. subst rl. simpl.
  destruct (String.eqb_spec content "(") as [->|_]; [contradiction|discriminate].
Qed.

(** A second stand-in, for files of several groups: a file is a list of
    groups separated by commas, each written [name:expression] and holding
    one recording rule. *)
Fixpoint cut (s : string) (sep : ascii) : string * string :=
  match s with
  | EmptyString => (EmptyString, EmptyString)
  | String ch rest =>
      if Ascii.eqb ch sep then (EmptyString, rest)
      else (String ch (fst (cut rest sep)), snd (cut rest sep))
  end.

Definition lineGroup (piece : string) : RuleGroup :=
  {| Name := fst (cut piece ":"); Interval := 0;
     Rules := [toyRule (snd (cut piece ":"))] |}.

Definition linePrometheus : Prometheus :=
  {| promql_Expr := string;
     labels_Labels := list (string * string);
     rulefmt_Parse := fun content =>
       if String.eqb content "" then (None, ["yaml: EOF"])
       else (Some {| Groups := map lineGroup (GoStrings.Split content ",") |},
             []);
     promql_ParseExpr := fun input =>
       if String.eqb input "(" then inl "parse error: unclosed left parenthesis"
       else inr input;
     labels_FromMap := map_to_list |}.

Lemma Parse_of_no_files_witness :
  @Parse_in toyPrometheus [] = Returned (Some ∅, None).
Proof.
  apply (@Parse_of_no_files toyPrometheus None []).
  - vm_compute. constructor.
  - reflexivity.
Defined.

Lemma Parse_wraps_first_format_error_witness :
  @Parse_in toyPrometheus [("a.rules", "up"); ("b.rules", ""); ("c.rules", "(")]
  = Returned (None, Some "error parsing b.rules: yaml: EOF").
Proof.
  apply (@Parse_wraps_first_format_error toyPrometheus
           [("a.rules", "up")] [("c.rules", "(")] "b.rules" "" None
           "yaml: EOF" []).
  - intros f ct Hin. apply list_elem_of_singleton in Hin.
    injection Hin as -> ->. apply toy_passes; discriminate.
  - reflexivity.
Defined.

Lemma Parse_returns_first_expr_error_witness :
  @Parse_in toyPrometheus [("a.rules", "up"); ("c.rules", "("); ("b.rules", "")]
  = Returned (None, Some "parse error: unclosed left parenthesis").
Proof.
  apply (@Parse_returns_first_expr_error toyPrometheus
           [("a.rules", "up")] [("b.rules", "")] "c.rules" "("
           {| Groups := [toyGroup "("] |} [] [] (toyGroup "(")
           [] [] (toyRule "(") "parse error: unclosed left parenthesis").
  - intros f ct Hin. apply list_elem_of_singleton in Hin.
    injection Hin as -> ->. apply toy_passes; discriminate.
  - reflexivity.
  - reflexivity.
  - reflexivity.
  - intros g r e Hin. inversion Hin.
  - intros r e Hin. inversion Hin.
  - reflexivity.
Defined.

Lemma Parse_entries_follow_the_rules_witness :
  exists fn content rgs rg,
    entries (Some (<["a.rules" := "up"]> ∅)) !! fn = Some content
    /\ fst (@rulefmt_Parse toyPrometheus content) = Some rgs
    /\ rg ∈ Groups rgs
    /\ "g;a.rules" = Name rg +:+ ";" +:+ fn.
Proof.
  destruct (@Parse_entries_follow_the_rules toyPrometheus
              (Some (<["a.rules" := "up"]> ∅)) [("a.rules", "up")]
              (<["g;a.rules" := [@NewRecordingRule toyPrometheus "r" "up" []]]> ∅)
              "g;a.rules" [@NewRecordingRule toyPrometheus "r" "up" []])
    as (fn & content & rgs & rg & H1 & H2 & H3 & H4 & _).
  - intros content. unfold failsFormat. simpl.
    destruct (String.eqb content ""); simpl; discriminate.
  - vm_compute. reflexivity.
  - vm_compute. reflexivity.
  - vm_compute. reflexivity.
  - exists fn, content, rgs, rg. auto.
Defined.

Lemma Parse_last_group_of_a_name_wins_witness :
  exists m,
    @Parse_in linePrometheus [("a.rules", "g:up,h:up,g:down")]
    = Returned (Some m, None)
    /\ m !! "g;a.rules" = Some [@NewRecordingRule linePrometheus "r" "down" []].
Proof.
  apply (@Parse_last_group_of_a_name_wins linePrometheus
           "a.rules" "g:up,h:up,g:down"
           {| Groups := [lineGroup "g:up"; lineGroup "h:up"; lineGroup "g:down"] |}
           [lineGroup "g:up"; lineGroup "h:up"] [] (lineGroup "g:down")
           [@NewRecordingRule linePrometheus "r" "down" []] eq_refl eq_refl).
  - intros g Hin. inversion Hin.
  - intros g rl e Hg Hrl. cbn [Groups] in Hg.
    repeat (apply elem_of_cons in Hg as [->|Hg];
            [apply list_elem_of_singleton in Hrl; subst rl; discriminate|]).
    inversion Hg.
  - reflexivity.
Defined.

Lemma Equal_configs_parse_alike_witness :
  @Parse_in toyPrometheus [("b.rules", "down"); ("a.rules", "up")]
  = Returned
      (Some (<["g;a.rules" := [@NewRecordingRule toyPrometheus "r" "up" []]]>
               (<["g;b.rules" := [@NewRecordingRule toyPrometheus "r" "down" []]]>
                  ∅)),
       None).
Proof.
  apply (@Equal_configs_parse_alike toyPrometheus
           (Some (<["a.rules" := "up"]> (<["b.rules" := "down"]> ∅)))
           (Some (<["b.rules" := "down"]> (<["a.rules" := "up"]> ∅)))
           [("a.rules", "up"); ("b.rules", "down")]
           [("b.rules", "down"); ("a.rules", "up")]).
  - vm_compute. first [reflexivity | apply perm_swap].
  - vm_compute. first [reflexivity | apply perm_swap].
  - intros fn content. unfold entries. cbn [default from_option id].
    rewrite !lookup_insert_Some, lookup_empty.
    intros [[<- _]|[_ [[<- _]|[_ [=]]]]]; reflexivity.
  - vm_compute. reflexivity.
  - vm_compute. reflexivity.
Defined.

Lemma Parse_files_can_collide_witness :
  @Parse_in linePrometheus [("b", "g;a:up"); ("a;b", "g:down")]
  = Returned
      (Some {["g;a;b" := [@NewRecordingRule linePrometheus "r" "down" []]]}, None)
  /\ @Parse_in linePrometheus [("a;b", "g:down"); ("b", "g;a:up")]
     = Returned
         (Some {["g;a;b" := [@NewRecordingRule linePrometheus "r" "up" []]]}, None).
Proof.
  exact (@Parse_files_can_collide linePrometheus "g" "a" "b" "g;a:up" "g:down"
           (lineGroup "g;a:up") (lineGroup "g:down")
           [@NewRecordingRule linePrometheus "r" "up" []]
           [@NewRecordingRule linePrometheus "r" "down" []]
           eq_refl eq_refl eq_refl eq_refl eq_refl eq_refl).
Defined.

End ConfigsExtras.

(** ** Facts about the template processor *)

Module TmplFacts.
Import Tmpl.

(** *** Suffixes and extensions *)

Lemma substring_all (s : string) : String.substring 0 (String.length s) s = s.
Proof. induction s as [|ch s IH]; simpl; [reflexivity|now rewrite IH]. Qed.

Lemma substring_split (s : string) : forall n,
  n <= String.length s ->
  String.substring 0 n s +:+ String.substring n (String.length s - n) s = s.
Proof.
  induction s as [|ch s IH]; intros [|n] Hn; cbn in *; try lia.
  - reflexivity.
  - now rewrite substring_all.
  - transitivity
      (String ch (String.substring 0 n s
                  +:+ String.substring n (String.length s - n) s));
      [reflexivity|]. f_equal. apply IH. lia.
Qed.

Lemma append_length (a b : string) :
  String.length (a +:+ b) = String.length a + String.length b.
Proof. induction a as [|x a IH]; simpl; [reflexivity|now rewrite IH]. Qed.

Lemma append_assoc (a b c : string) : (a +:+ b) +:+ c = a +:+ (b +:+ c).
Proof.
  induction a as [|x a IH]; [reflexivity|].
  change (String x ((a +:+ b) +:+ c) = String x (a +:+ (b +:+ c))).
  now rewrite IH.
Qed.

Lemma substring_app_prefix (a b : string) :
  String.substring 0 (String.length a) (a +:+ b) = a.
Proof.
  induction a as [|x a IH]; simpl.
  - destruct b; reflexivity.
  - now rewrite IH.
Qed.

Lemma substring_app_suffix (a b : string) :
  String.substring (String.length a) (String.length b) (a +:+ b) = b.
Proof.
  induction a as [|x a IH]; simpl; [apply substring_all|exact IH].
Qed.

Lemma HasSuffix_app (a suffix : string) : HasSuffix (a +:+ suffix) suffix = true.
Proof.
  unfold HasSuffix. rewrite append_length.
  replace (String.length a + String.length suffix - String.length suffix)
    with (String.length a) by lia.
  rewrite substring_app_suffix, String.eqb_refl, andb_true_r.
  apply Nat.leb_le. lia.
Qed.

Lemma TrimSuffix_app (a suffix : string) : TrimSuffix (a +:+ suffix) suffix = a.
Proof.
  unfold TrimSuffix. rewrite HasSuffix_app, append_length.
  replace (String.length a + String.length suffix - String.length suffix)
    with (String.length a) by lia.
  apply substring_app_prefix.
Qed.

(** Trimming a suffix the string has and putting it back is the
    identity. *)
Lemma TrimSuffix_round_trip (s suffix : string) :
  HasSuffix s suffix = true -> TrimSuffix s suffix +:+ suffix = s.
Proof.
  intros Hs. unfold TrimSuffix. rewrite Hs. unfold HasSuffix in Hs.
  apply andb_true_iff in Hs as [Hlen Heq].
  apply Nat.leb_le in Hlen. apply String.eqb_eq in Heq.
  pose proof (substring_split s (String.length s - String.length suffix)
                ltac:(lia)) as Hsplit.
  replace (String.length s - (String.length s - String.length suffix))
    with (String.length suffix) in Hsplit by lia.
  now rewrite Heq in Hsplit.
Qed.

Lemma TrimSuffix_shorter (s suffix : string) :
  HasSuffix s suffix = true -> suffix <> "" -> TrimSuffix s suffix <> s.
Proof.
  intros Hs Hne Heq. pose proof (TrimSuffix_round_trip s suffix Hs) as Hrt.
  rewrite Heq in Hrt. apply (f_equal String.length) in Hrt.
  rewrite append_length in Hrt. destruct suffix; [contradiction|]. simpl in Hrt. lia.
Qed.

Lemma scanExt_go (base : string) : scanExt (base +:+ ".go") = ExtFound ".go".
Proof.
  induction base as [|ch base IH]; [reflexivity|].
  change (String ch base +:+ ".go") with (String ch (base +:+ ".go")).
  cbn [scanExt]. now rewrite IH.
Qed.

Lemma Ext_go (base : string) : Ext (base +:+ ".go") = ".go".
Proof. unfold Ext. now rewrite scanExt_go. Qed.

Section MainFacts.
Context `{Env}.

(** The path [process] writes to. *)
Definition outputPathOf (m : Main) (path : string) : string :=
  if String.eqb (OutputPath m) "" then TrimSuffix path Extension
  else OutputPath m.

(** [process] writes at most once, to the output path and with the
    template's mode; when no output path is given that path is the
    template's without its [.tmpl] extension, never the template itself. *)
Theorem process_writes_at_most_once (m : Main) (path : string) (w : World) :
  snd (process m path w) = w
  \/ (HasSuffix path Extension = true
      /\ (exists data mode,
            Stat path w = inr mode
            /\ snd (process m path w)
               = snd (WriteFile (outputPathOf m path) data mode w))
      /\ (OutputPath m = "" ->
            outputPathOf m path +:+ Extension = path
            /\ outputPathOf m path <> path)).
Proof.
  unfold process. fold (outputPathOf m path).
  destruct (HasSuffix path Extension) eqn:Hsuf; cbn [negb]; [|now left].
  destruct (Stat path w) as [err|mode] eqn:Hstat.
  { destruct (IsNotExist err); now left. }
  destruct (ReadFile path w) as [err|source].
  { destruct (IsNotExist err); now left. }
  destruct (template_Parse source) as [err|tmpl]; [now left|].
  destruct (template_Execute tmpl (MainData m)) as [written [e|]]; [now left|].
  right. split; [reflexivity|]. split.
  - destruct (String.eqb (Ext (outputPathOf m path)) ".go").
    + destruct (format_Source _) as [e|formatted]; cbn [snd]; eauto.
    + eauto.
  - intros Hout. unfold outputPathOf. rewrite Hout. cbn.
    split; [now apply TrimSuffix_round_trip|].
    apply TrimSuffix_shorter; [exact Hsuf|discriminate].
Qed.

(** A generated Go file that does not format: the unformatted output is
    written all the same, and the formatter's error is returned whatever
    the write did. *)
Theorem unformatted_go_is_still_written
    (m : Main) (path source written : string) (w : World)
    (mode : FileMode) (tmpl : Template) (e : error) :
  HasSuffix path Extension = true ->
  Stat path w = inr mode ->
  ReadFile path w = inr source ->
  template_Parse source = inr tmpl ->
  template_Execute tmpl (MainData m) = (written, None) ->
  Ext (outputPathOf m path) = ".go" ->
  format_Source
    ((if NoHeader m then "" else header path) +:+ written) = inl e ->
  process m path w
  = (Some e,
     snd (WriteFile (outputPathOf m path)
            ((if NoHeader m then "" else header path) +:+ written) mode w)).
Proof.
  intros Hsuf Hstat Hread Hparse Hexec Hext Hfmt.
  unfold process. fold (outputPathOf m path).
  rewrite Hsuf, Hstat, Hread, Hparse, Hexec, Hext. cbn [negb String.eqb].
  change (String.eqb ".go" ".go") with true. rewrite andb_true_r.
  destruct (NoHeader m); cbn [negb]; now rewrite Hfmt.
Qed.

(** A template named [X.go.tmpl], processed with no output path and with
    the header on: what is written to [X.go] is the formatted form of the
    header followed by what the template produced. *)
Theorem go_template_gets_header_and_format
    (m : Main) (base source written formatted : string) (w : World)
    (mode : FileMode) (tmpl : Template) :
  OutputPath m = "" ->
  NoHeader m = false ->
  Stat (base +:+ ".go.tmpl") w = inr mode ->
  ReadFile (base +:+ ".go.tmpl") w = inr source ->
  template_Parse source = inr tmpl ->
  template_Execute tmpl (MainData m) = (written, None) ->
  format_Source (header (base +:+ ".go.tmpl") +:+ written) = inr formatted ->
  process m (base +:+ ".go.tmpl") w
  = WriteFile (base +:+ ".go") formatted mode w.
Proof.
  intros Hout Hhdr Hstat Hread Hparse Hexec Hfmt.
  assert (Hpath : base +:+ ".go.tmpl" = (base +:+ ".go") +:+ Extension).
  { unfold Extension. now rewrite append_assoc. }
  assert (Hsuf : HasSuffix (base +:+ ".go.tmpl") Extension = true)
    by (rewrite Hpath; apply HasSuffix_app).
  assert (Htrim : TrimSuffix (base +:+ ".go.tmpl") Extension = base +:+ ".go")
    by (rewrite Hpath; apply TrimSuffix_app).
  unfold process.
  rewrite Hsuf, Hout, Hhdr, Hstat, Hread, Hparse, Hexec.
  change (String.eqb "" "") with true. cbv iota. rewrite Htrim, Ext_go.
  change (String.eqb ".go" ".go") with true.
  cbn [negb andb]. now rewrite Hfmt.
Qed.

(** An output that is not a Go file gets neither header nor formatting:
    what the template produced is written as it is. *)
Theorem other_output_is_written_verbatim
    (m : Main) (path source written : string) (w : World)
    (mode : FileMode) (tmpl : Template) :
  HasSuffix path Extension = true ->
  Stat path w = inr mode ->
  ReadFile path w = inr source ->
  template_Parse source = inr tmpl ->
  template_Execute tmpl (MainData m) = (written, None) ->
  Ext (outputPathOf m path) <> ".go" ->
  process m path w = WriteFile (outputPathOf m path) written mode w.
Proof.
  intros Hsuf Hstat Hread Hparse Hexec Hext.
  unfold process. fold (outputPathOf m path).
  rewrite Hsuf, Hstat, Hread, Hparse, Hexec. cbn [negb].
  apply String.eqb_neq in Hext. rewrite Hext, andb_false_r. reflexivity.
Qed.

Lemma processAll_app (m : Main) (done rest : list string) : forall w w1,
  processAll m done w = (None, w1) ->
  processAll m (done ++ rest) w = processAll m rest w1.
Proof.
  induction done as [|p done IH]; intros w w1 Hdone; cbn [app processAll] in *.
  - now injection Hdone as <-.
  - destruct (process m p w) as [[e|] w']; [discriminate|]. now apply IH.
Qed.

(** [Run] stops at the first path that fails: the paths before it have
    been processed, those after it are not looked at, and the error is that
    path's. *)
Theorem Run_stops_at_first_error
    (m : Main) (done rest : list string) (bad : string)
    (w w1 w2 : World) (e : error) :
  Paths m = (done ++ bad :: rest)%list ->
  processAll m done w = (None, w1) ->
  process m bad w1 = (Some e, w2) ->
  Run m w = (Some e, w2).
Proof.
  intros Hpaths Hdone Hbad. unfold Run. rewrite Hpaths.
  destruct (done ++ bad :: rest)%list eqn:Happ.
  { now destruct done. }
  cbn [length Nat.eqb]. rewrite <- Happ.
  rewrite (processAll_app m done (bad :: rest) w w1 Hdone).
  cbn [processAll]. now rewrite Hbad.
Qed.

End MainFacts.

(** *** Runs on files kept in memory *)

(** Files as a map from path to content and mode; a template engine that
    writes the template out as it is and rejects a source ending in an open
    action; a formatter that rejects a source ending in an open brace. *)
Definition memFS : Env :=
  {| World := gmap string (string * N);
     Data := unit;
     Template := string;
     FileMode := N;
     Stat := fun path w =>
       match w !! path with
       | Some (_, mode) => inr mode
       | None => inl "stat: no such file or directory"
       end;
     ReadFile := fun path w =>
       match w !! path with
       | Some (data, _) => inr data
       | None => inl "open: no such file or directory"
       end;
     WriteFile := fun path data mode w =>
       (None,
        <[path := (data, match w !! path with
                         | Some (_, old) => old
                         | None => mode
                         end)]> w);
     IsNotExist := fun err => HasSuffix err "no such file or directory";
     template_Parse := fun source =>
       if HasSuffix source "{{" then inl "template: main: unclosed action"
       else inr source;
     template_Execute := fun tmpl _ => (tmpl, None);
     format_Source := fun source =>
       if HasSuffix source "{" then inl "expected }, found EOF"
       else inr source |}.

Definition someFiles : gmap string (string * N) :=
  <["a.go.tmpl" := ("func f() {", 420%N)]>
    (<["b.txt.tmpl" := ("hello", 384%N)]>
       (<["c.go.tmpl" := ("package c", 420%N)]> ∅)).

Definition plainMain (paths : list string) (noHeader : bool) : @Main memFS :=
  {| Paths := paths; NoHeader := noHeader; OutputPath := "";
     MainData := tt : @Data memFS |}.

Lemma unformatted_go_is_still_written_witness :
  @process memFS (plainMain ["a.go.tmpl"] true) "a.go.tmpl" someFiles
  = (Some "expected }, found EOF",
     <["a.go" := ("func f() {", 420%N)]> someFiles).
Proof.
  apply (@unformatted_go_is_still_written memFS
           (plainMain ["a.go.tmpl"] true) "a.go.tmpl" "func f() {" "func f() {"
           someFiles 420%N "func f() {" "expected }, found EOF");
    vm_compute; reflexivity.
Defined.

Lemma go_template_gets_header_and_format_witness :
  @process memFS (plainMain ["c.go.tmpl"] false) ("c" +:+ ".go.tmpl") someFiles
  = @WriteFile memFS ("c" +:+ ".go")
      (@header ("c" +:+ ".go.tmpl") +:+ "package c") 420%N someFiles.
Proof.
  apply (@go_template_gets_header_and_format memFS
           (plainMain ["c.go.tmpl"] false) "c" "package c" "package c"
           (@header "c.go.tmpl" +:+ "package c") someFiles 420%N "package c");
    vm_compute; reflexivity.
Defined.

Lemma other_output_is_written_verbatim_witness :
  @process memFS (plainMain ["b.txt.tmpl"] false) "b.txt.tmpl" someFiles
  = (None, <["b.txt" := ("hello", 384%N)]> someFiles).
Proof.
  apply (@other_output_is_written_verbatim memFS
           (plainMain ["b.txt.tmpl"] false) "b.txt.tmpl" "hello" "hello"
           someFiles 384%N "hello");
    vm_compute; try reflexivity; discriminate.
Defined.

Lemma Run_stops_at_first_error_witness :
  @Run memFS (plainMain ["b.txt.tmpl"; "missing.tmpl"; "c.go.tmpl"] false)
       someFiles
  = (Some "file not found", <["b.txt" := ("hello", 384%N)]> someFiles).
Proof.
  apply (@Run_stops_at_first_error memFS
           (plainMain ["b.txt.tmpl"; "missing.tmpl"; "c.go.tmpl"] false)
           ["b.txt.tmpl"] ["c.go.tmpl"] "missing.tmpl" someFiles
           (<["b.txt" := ("hello", 384%N)]> someFiles)
           (<["b.txt" := ("hello", 384%N)]> someFiles) "file not found");
    vm_compute; reflexivity.
Defined.

End TmplFacts.

(** ** Facts about the registration of flags *)

Module CacheFlagsFacts.
Import Cache CacheFlags.

Definition flagSuffixes : list string :=
  ["memcached.hostname"; "memcached.service"; "memcached.addresses";
   "memcached.max-idle-conns"; "memcached.timeout";
   "memcached.update-interval"; "memcached.consistent-hash"].

(** The names a registration defines. *)
Definition flagNames (prefix : string) : list string :=
  map (fun suffix => prefix +:+ suffix) flagSuffixes.

(** The configuration a registration leaves in [cfg]. *)
Definition defaults : MemcachedClientConfig :=
  {| Host := ""; Service := "memcached"; Addresses := "";
     Timeout := 100 * Millisecond; MaxIdleConns := 16;
     UpdateInterval := 1 * Minute; ConsistentHash := false |}.

Lemma same_prefix_ne (prefix a b : string) :
  a <> b -> prefix +:+ a <> prefix +:+ b.
Proof. intros Hne Heq. apply Hne. now apply (inj (String.app prefix)). Qed.

(** Two strings with a common end: one's tail is a suffix of the
    other's. *)
Lemma app_eq_suffix : forall p1 p2 s1 s2 : string,
  p1 +:+ s1 = p2 +:+ s2 ->
  Tmpl.HasSuffix s2 s1 = true \/ Tmpl.HasSuffix s1 s2 = true.
Proof.
  induction p1 as [|x p1 IH]; intros p2 s1 s2 Heq.
  - right. change ("" +:+ s1) with s1 in Heq. subst s1.
    apply TmplFacts.HasSuffix_app.
  - destruct p2 as [|y p2].
    + left. change ("" +:+ s2) with s2 in Heq. subst s2.
      apply TmplFacts.HasSuffix_app.
    + change (String x (p1 +:+ s1) = String y (p2 +:+ s2)) in Heq.
      injection Heq as _ Heq. now apply (IH p2).
Qed.

Lemma suffixes_independent (s1 s2 : string) :
  s1 ∈ flagSuffixes -> s2 ∈ flagSuffixes ->
  Tmpl.HasSuffix s2 s1 = true -> s1 = s2.
Proof.
  intros H1 H2 Hsuf.
  assert (Hall : forallb (fun a =>
                    forallb (fun b => implb (Tmpl.HasSuffix b a) (String.eqb a b))
                            flagSuffixes) flagSuffixes = true)
    by (vm_compute; reflexivity).
  rewrite forallb_forall in Hall.
  apply list_elem_of_In in H1, H2.
  specialize (Hall s1 H1). rewrite forallb_forall in Hall.
  specialize (Hall s2 H2). rewrite Hsuf in Hall. now apply String.eqb_eq.
Qed.

Lemma flag_names_meet (p1 p2 : string) (n : string) :
  n ∈ flagNames p1 -> n ∈ flagNames p2 -> p1 = p2.
Proof.
  unfold flagNames. intros H1 H2.
  apply list_elem_of_fmap in H1 as (s1 & -> & Hs1).
  apply list_elem_of_fmap in H2 as (s2 & Heq & Hs2).
  assert (s1 = s2) as <-.
  { destruct (app_eq_suffix _ _ _ _ Heq) as [Hsuf|Hsuf].
    - now apply suffixes_independent.
    - symmetry. now apply suffixes_independent. }
  now apply (ConfigsExtras.string_app_inv_tail p1 p2 s1).
Qed.

Section RegistrationFacts.
Variable nameOK : string -> bool.

Lemma Var_fresh name def usage (f : FlagSet) :
  nameOK name = true ->
  f !! name = None ->
  Var nameOK name def usage f
  = Some (<[name := {| DefValue := def; Usage := usage |}]> f).
Proof. unfold Var. now intros -> ->. Qed.

Lemma Var_defined name def usage (f : FlagSet) :
  nameOK name = false \/ is_Some (f !! name) ->
  Var nameOK name def usage f = None.
Proof.
  unfold Var. intros [->|[fl ->]]; [reflexivity|].
  now destruct (nameOK name).
Qed.

(** The seven definitions as a list, and their run. *)
Definition flagsOf (prefix description : string)
  : list (string * flagDefault * string) :=
  [(prefix +:+ "memcached.hostname", StringDefault "",
    description +:+ usageHostname);
   (prefix +:+ "memcached.service", StringDefault "memcached",
    description +:+ usageService);
   (prefix +:+ "memcached.addresses", StringDefault "",
    description +:+ usageAddresses);
   (prefix +:+ "memcached.max-idle-conns", IntDefault 16,
    description +:+ usageMaxIdleConns);
   (prefix +:+ "memcached.timeout", DurationDefault (100 * Millisecond),
    description +:+ usageTimeout);
   (prefix +:+ "memcached.update-interval", DurationDefault (1 * Minute),
    description +:+ usageUpdateInterval);
   (prefix +:+ "memcached.consistent-hash", BoolDefault false,
    description +:+ usageConsistentHash)].

Fixpoint defineAll (l : list (string * flagDefault * string)) (f : FlagSet)
  : option FlagSet :=
  match l with
  | [] => Some f
  | (name, def, usage) :: rest =>
      match Var nameOK name def usage f with
      | Some f' => defineAll rest f'
      | None => None
      end
  end.

Lemma Register_as_list cfg prefix description (f : FlagSet) :
  RegisterFlagsWithPrefix nameOK cfg prefix description f
  = match defineAll (flagsOf prefix description) f with
    | Some f' => Some (defaults, f')
    | None => None
    end.
Proof.
  unfold RegisterFlagsWithPrefix, flagsOf. cbn [defineAll].
  unfold StringVar, IntVar, DurationVar, BoolVar, mbind, option_bind.
  cbn [fst snd].
  repeat match goal with
         | |- context [Var nameOK ?n ?d ?u ?g] =>
             destruct (Var nameOK n d u g); cbn [fst snd]; [|reflexivity]
         end.
  reflexivity.
Qed.

Lemma flagsOf_names prefix description :
  (flagsOf prefix description).*1.*1 = flagNames prefix.
Proof. reflexivity. Qed.

Lemma flagNames_NoDup prefix : NoDup (flagNames prefix).
Proof.
  unfold flagNames. apply (NoDup_fmap_2 (String.app prefix)).
  refine (bool_decide_unpack _ _). vm_compute. exact I.
Qed.

Lemma defineAll_fresh (l : list (string * flagDefault * string)) :
  forall f : FlagSet,
  NoDup l.*1.*1 ->
  (forall n, n ∈ l.*1.*1 -> nameOK n = true /\ f !! n = None) ->
  exists f',
    defineAll l f = Some f'
    /\ (forall n, n ∉ l.*1.*1 -> f' !! n = f !! n)
    /\ (forall n def usage, (n, def, usage) ∈ l ->
          f' !! n = Some {| DefValue := def; Usage := usage |}).
Proof.
  induction l as [|[[name def] usage] l IH]; intros f Hnd Hfresh.
  - exists f. split; [reflexivity|]. split; [reflexivity|].
    intros n d u Hin. inversion Hin.
  - cbn [fmap list_fmap fst] in Hnd, Hfresh. apply NoDup_cons in Hnd as [Hname Hnd].
    cbn [defineAll]. rewrite Var_fresh by (apply Hfresh; left).
    destruct (IH (<[name := {| DefValue := def; Usage := usage |}]> f) Hnd)
      as (f' & Hrun & Hout & Hin).
    { intros n Hn. rewrite lookup_insert_ne by (intros ->; contradiction).
      apply Hfresh. now right. }
    exists f'. split; [exact Hrun|]. split.
    + intros n Hn. cbn [fmap list_fmap fst] in Hn.
      apply not_elem_of_cons in Hn as [Hne Hn].
      rewrite (Hout n Hn). now apply lookup_insert_ne.
    + intros n d u Hmem. apply elem_of_cons in Hmem as [[= -> -> ->]|Hmem].
      * rewrite (Hout name Hname). apply lookup_insert_eq.
      * now apply Hin.
Qed.

Lemma defineAll_defined (l : list (string * flagDefault * string)) :
  forall (f : FlagSet) n,
  n ∈ l.*1.*1 -> nameOK n = false \/ is_Some (f !! n) -> defineAll l f = None.
Proof.
  induction l as [|[[name def] usage] l IH]; intros f n Hin Hdef.
  - inversion Hin.
  - cbn [defineAll].
    destruct (Var nameOK name def usage f) as [f'|] eqn:Hvar; [|reflexivity].
    cbn [fmap list_fmap fst] in Hin. apply elem_of_cons in Hin as [->|Hin].
    + rewrite Var_defined in Hvar by exact Hdef. discriminate.
    + apply (IH _ n Hin). destruct Hdef as [Hno|Hdef]; [now left|right].
      unfold Var in Hvar. destruct (nameOK name); [|discriminate].
      destruct (f !! name); [discriminate|]. injection Hvar as <-.
      destruct (decide (name = n)) as [->|Hne].
      * rewrite lookup_insert_eq. eauto.
      * now rewrite lookup_insert_ne.
Qed.

Lemma Register_fresh cfg prefix description (f : FlagSet) :
  (forall n, n ∈ flagNames prefix -> nameOK n = true /\ f !! n = None) ->
  exists f',
    RegisterFlagsWithPrefix nameOK cfg prefix description f = Some (defaults, f')
    /\ (forall n, is_Some (f' !! n) <-> is_Some (f !! n) \/ n ∈ flagNames prefix)
    /\ (forall n, n ∉ flagNames prefix -> f' !! n = f !! n)
    /\ (forall n fl, n ∈ flagNames prefix -> f' !! n = Some fl ->
          exists rest, Usage fl = description +:+ rest).
Proof.
  intros Hfresh. rewrite Register_as_list.
  destruct (defineAll_fresh (flagsOf prefix description) f)
    as (f' & -> & Hout & Hin).
  { rewrite flagsOf_names. apply flagNames_NoDup. }
  { rewrite flagsOf_names. exact Hfresh. }
  rewrite flagsOf_names in Hout.
  assert (Hmem : forall n, n ∈ flagNames prefix ->
            exists def rest, (n, def, description +:+ rest) ∈ flagsOf prefix description).
  { intros n Hn. unfold flagNames, flagSuffixes in Hn. cbn [map] in Hn.
    unfold flagsOf.
    repeat (apply elem_of_cons in Hn as [->|Hn];
            [eexists _, _;
             repeat first [apply list_elem_of_here | apply list_elem_of_further]|]).
    inversion Hn. }
  exists f'. split; [reflexivity|]. split; [|split].
  - intros n. destruct (decide (n ∈ flagNames prefix)) as [Hn|Hn].
    + split; [auto|]. intros _. destruct (Hmem n Hn) as (def & rest & Hflag).
      rewrite (Hin _ _ _ Hflag). eauto.
    + rewrite (Hout n Hn). tauto.
  - exact Hout.
  - intros n fl Hn Hfl. destruct (Hmem n Hn) as (def & rest & Hflag).
    rewrite (Hin _ _ _ Hflag) in Hfl. injection Hfl as <-. cbn. eauto.
Qed.

Lemma Register_defined cfg prefix description (f : FlagSet) (n : string) :
  n ∈ flagNames prefix -> nameOK n = false \/ is_Some (f !! n) ->
  RegisterFlagsWithPrefix nameOK cfg prefix description f = None.
Proof.
  intros Hin Hdef. rewrite Register_as_list.
  rewrite (defineAll_defined (flagsOf prefix description) f n); [reflexivity| |exact Hdef].
  now rewrite flagsOf_names.
Qed.

(** A registration defines exactly its seven flags, each with the
    description in front of its usage, leaves the flags already there as
    they are, and sets the configuration to the defaults whatever it held;
    it goes through when the package accepts the seven names and none of
    them is defined yet, and panics otherwise. *)
Theorem RegisterFlags_defines_seven_flags
    cfg prefix description (f : FlagSet) :
  ((forall n, n ∈ flagNames prefix -> nameOK n = true /\ f !! n = None) ->
   exists f',
     RegisterFlagsWithPrefix nameOK cfg prefix description f = Some (defaults, f')
     /\ (forall n, is_Some (f' !! n) <-> is_Some (f !! n) \/ n ∈ flagNames prefix)
     /\ (forall n, n ∉ flagNames prefix -> f' !! n = f !! n)
     /\ (forall n fl, n ∈ flagNames prefix -> f' !! n = Some fl ->
           exists rest, Usage fl = description +:+ rest))
  /\ (forall n, n ∈ flagNames prefix -> nameOK n = false \/ is_Some (f !! n) ->
        RegisterFlagsWithPrefix nameOK cfg prefix description f = None).
Proof.
  split; [apply Register_fresh|apply Register_defined].
Qed.

(** Registered twice on one flag set, under two different prefixes whose
    names the package accepts, the flags do not collide: both
    registrations go through, and the set then holds the names of both.
    Under a prefix already registered, a further registration panics. *)
Theorem RegisterFlags_twice cfg1 cfg2 (p1 p2 d1 d2 : string) :
  (forall n, n ∈ flagNames p1 -> nameOK n = true) ->
  (forall n, n ∈ flagNames p2 -> nameOK n = true) ->
  p1 <> p2 ->
  exists f1 f2,
    RegisterFlagsWithPrefix nameOK cfg1 p1 d1 ∅ = Some (defaults, f1)
    /\ RegisterFlagsWithPrefix nameOK cfg2 p2 d2 f1 = Some (defaults, f2)
    /\ (forall n, is_Some (f2 !! n) <-> n ∈ flagNames p1 \/ n ∈ flagNames p2)
    /\ (forall cfg d, RegisterFlagsWithPrefix nameOK cfg p1 d f1 = None)
    /\ (forall cfg d, RegisterFlagsWithPrefix nameOK cfg p1 d f2 = None)
    /\ (forall cfg d, RegisterFlagsWithPrefix nameOK cfg p2 d f2 = None).
Proof.
  intros Hok1 Hok2 Hne.
  destruct (Register_fresh cfg1 p1 d1 ∅) as (f1 & Hrun1 & Hdom1 & _).
  { intros n Hn. split; [now apply Hok1|apply lookup_empty]. }
  assert (Hdom1' : forall n, is_Some (f1 !! n) <-> n ∈ flagNames p1).
  { intros n. rewrite Hdom1, lookup_empty. split; [|auto].
    intros [[x Hx]|Hin]; [discriminate|exact Hin]. }
  destruct (Register_fresh cfg2 p2 d2 f1) as (f2 & Hrun2 & Hdom2 & _).
  { intros n Hin. split; [now apply Hok2|].
    destruct (f1 !! n) eqn:Hn; [|reflexivity].
    exfalso. apply Hne. apply (flag_names_meet p1 p2 n); [|exact Hin].
    apply Hdom1'. eauto. }
  assert (Hdom2' : forall n,
            is_Some (f2 !! n) <-> n ∈ flagNames p1 \/ n ∈ flagNames p2).
  { intros n. rewrite Hdom2, Hdom1'. reflexivity. }
  assert (Hhead : forall p, p +:+ "memcached.hostname" ∈ flagNames p).
  { intros p. unfold flagNames, flagSuffixes. cbn [map]. apply list_elem_of_here. }
  exists f1, f2. repeat split; try assumption; try apply Hdom2'.
  - intros cfg d.
    apply (Register_defined cfg p1 d f1 (p1 +:+ "memcached.hostname"));
      [apply Hhead|right; apply Hdom1', Hhead].
  - intros cfg d.
    apply (Register_defined cfg p1 d f2 (p1 +:+ "memcached.hostname"));
      [apply Hhead|right; apply Hdom2'; left; apply Hhead].
  - intros cfg d.
    apply (Register_defined cfg p2 d f2 (p2 +:+ "memcached.hostname"));
      [apply Hhead|right; apply Hdom2'; right; apply Hhead].
Qed.

End RegistrationFacts.

Lemma RegisterFlags_twice_witness :
  exists f1 f2,
    RegisterFlagsWithPrefix plainName defaults "store." "Store. " ∅
    = Some (defaults, f1)
    /\ RegisterFlagsWithPrefix plainName defaults "index." "Index. " f1
       = Some (defaults, f2)
    /\ (forall n, is_Some (f2 !! n)
                  <-> n ∈ flagNames "store." \/ n ∈ flagNames "index.")
    /\ (forall cfg d, RegisterFlagsWithPrefix plainName cfg "store." d f1 = None)
    /\ (forall cfg d, RegisterFlagsWithPrefix plainName cfg "store." d f2 = None)
    /\ (forall cfg d, RegisterFlagsWithPrefix plainName cfg "index." d f2 = None).
Proof.
  apply (RegisterFlags_twice plainName defaults defaults
           "store." "index." "Store. " "Index. ").
  - intros n Hn. unfold flagNames, flagSuffixes in Hn. cbn [map] in Hn.
    repeat (apply elem_of_cons in Hn as [->|Hn]; [reflexivity|]).
    inversion Hn.
  - intros n Hn. unfold flagNames, flagSuffixes in Hn. cbn [map] in Hn.
    repeat (apply elem_of_cons in Hn as [->|Hn]; [reflexivity|]).
    inversion Hn.
  - discriminate.
Defined.

End CacheFlagsFacts.
